(** * Actions suggestions of libtextclassifier: a shallow embedding

    This file embeds, over the Standard Library, the parts of
    [actions/actions-suggestions.cc] (the gating pipeline, the locale
    matcher, the annotation mapper and its deduplication, the rule pass),
    of [utils/sentencepiece/double_array_trie.cc] (prefix matching) and of
    [utils/flatbuffers.h] (the reflective record builder) that the
    properties below are about.

    Conventions of the embedding:
    - C++ [int] and [int64] values are [Z]; [unsigned int] trie positions
      are [N]; [float] scores are rationals [Q] (no NaN, no rounding);
    - [std::string] is [String.string] (one [ascii] per byte, so
      [String.length] is [std::string::length]);
    - a [std::vector] that the code appends to with [push_back] is a list
      extended with [++ [x]];
    - methods that mutate a response through a pointer return the updated
      response; methods that also return [bool] return a pair;
    - collaborators that are not part of this code (the regex engine, the
      TensorFlow Lite interpreter, the annotator, the ranker, the entity
      data builder, the locale parser) are fields of an environment record
      [Env] and every property is stated for all environments. *)

From Stdlib Require Import String Ascii ZArith NArith QArith Bool Lia List.
From Stdlib Require Import Qminmax Permutation Sorted.
Import ListNotations.

Set Warnings "-register-all".

Open Scope string_scope.
Open Scope Z_scope.

(** [a < b] on scores, as the C++ [<] on floats. *)
Definition Qltb (a b : Q) : bool := negb (Qle_bool b a).

Lemma Qltb_iff (a b : Q) : Qltb a b = true <-> (a < b)%Q.
Proof.
  unfold Qltb. rewrite negb_true_iff. split; intro H.
  - apply Qnot_le_lt. intro H'. apply Qle_bool_iff in H'. congruence.
  - destruct (Qle_bool b a) eqn:E; [|reflexivity].
    apply Qle_bool_iff in E. exfalso. apply (Qlt_not_le a b); assumption.
Qed.

(** The last [n] elements of a list: the loop
    [for (i = size - n; i < size; i++)] of the source. *)
Definition lastn {A} (n : Z) (l : list A) : list A :=
  skipn (length l - Z.to_nat n) l.

(* ------------------------------------------------------------------ *)
(** ** Locales *)

(** Modelled from the spec: [Locale] (utils/i18n/locale.h, not in src),
    a parsed [language-script-region] triple with a validity flag set by
    the parser; [IsUnknown] holds for a valid locale whose language is the
    BCP 47 "undetermined" tag. *)
Record Locale := mkLocale {
  Language : string;
  Script : string;
  Region : string;
  is_valid_ : bool
}.

Definition IsValid (l : Locale) : bool := is_valid_ l.

(** Modelled from the spec: the explicitly unknown locale. *)
Definition IsUnknown (l : Locale) : bool :=
  is_valid_ l && String.eqb (Language l) "und".

Definition kAnyMatch : string := "*".

Definition string_empty (s : string) : bool := String.eqb s "".

(** The three conditions computed in the loop of
    [ActionsSuggestions::IsLocaleSupportedByModel]. *)
Definition language_matches (model_locale locale : Locale) : bool :=
  string_empty (Language model_locale) ||
  String.eqb (Language model_locale) kAnyMatch ||
  String.eqb (Language model_locale) (Language locale).

Definition script_matches (model_locale locale : Locale) : bool :=
  string_empty (Script model_locale) ||
  String.eqb (Script model_locale) kAnyMatch ||
  string_empty (Script locale) ||
  String.eqb (Script model_locale) (Script locale).

Definition region_matches (model_locale locale : Locale) : bool :=
  string_empty (Region model_locale) ||
  String.eqb (Region model_locale) kAnyMatch ||
  string_empty (Region locale) ||
  String.eqb (Region model_locale) (Region locale).

Definition locale_components_match (model_locale locale : Locale) : bool :=
  language_matches model_locale locale &&
  script_matches model_locale locale &&
  region_matches model_locale locale.

(** The [for (const Locale& model_locale : locales_)] loop. *)
Fixpoint model_locales_loop (locales : list Locale) (locale : Locale) : bool :=
  match locales with
  | [] => false
  | model_locale :: rest =>
      if negb (IsValid model_locale) then model_locales_loop rest locale
      else if locale_components_match model_locale locale then true
      else model_locales_loop rest locale
  end.

(** A locale with one component replaced. *)
Definition with_language (l : Locale) (s : string) : Locale :=
  mkLocale s (Script l) (Region l) (is_valid_ l).

Definition with_script (l : Locale) (s : string) : Locale :=
  mkLocale (Language l) s (Region l) (is_valid_ l).

Definition with_region (l : Locale) (s : string) : Locale :=
  mkLocale (Language l) (Script l) s (is_valid_ l).

(* ------------------------------------------------------------------ *)
(** ** Double-array trie *)

Module Trie.

(** Modelled from the spec: one node of the array of [DoubleArrayTrie]
    (the accessors [label], [offset], [has_leaf] and [value] live in
    double_array_trie.h, not in src).  A node stores the label checked on
    entry, the XOR offset to its children, whether it has a leaf child,
    and, for a leaf, the id it carries. *)
Record TrieNode := mkNode {
  node_label : N;
  node_offset : N;
  node_has_leaf : bool;
  node_value : Z
}.

Record DoubleArrayTrie := mkTrie { nodes_ : list TrieNode }.

Definition nodes_length_ (t : DoubleArrayTrie) : N := N.of_nat (length (nodes_ t)).

Definition node_at (t : DoubleArrayTrie) (pos : N) : option TrieNode :=
  nth_error (nodes_ t) (N.to_nat pos).

Definition offset (t : DoubleArrayTrie) (pos : N) : N :=
  match node_at t pos with Some n => node_offset n | None => 0%N end.

Record TrieMatch := mkTrieMatch { match_id : Z; match_length : Z }.

(** A [char] of the input (a byte [0..255] read through a signed [char])
    converted to [unsigned int] for the comparison with [label(pos)]. *)
Definition char_to_unsigned (c : N) : N :=
  if (c <? 128)%N then c else (c + 4294967296 - 256)%N.

(** Outcome of [GatherPrefixMatches]: the returned [bool] with the
    matches handed to [update_fn] so far, or an out-of-bounds read of
    [value(pos)] (undefined behaviour in C++) after the matches so far. *)
Inductive GatherOutcome :=
| Gathered (ok : bool) (matches : list TrieMatch)
| OutOfBoundsRead (matches : list TrieMatch).

(** The [for] loop of [DoubleArrayTrie::GatherPrefixMatches], from input
    index [i] at trie position [pos]. [pos < 0] is always false for an
    unsigned position and is left out. *)
Fixpoint gather_loop (t : DoubleArrayTrie) (input : list N) (i : Z) (pos : N)
    (acc : list TrieMatch) : GatherOutcome :=
  match input with
  | [] => Gathered true acc
  | c :: rest =>
      if (c =? 0)%N then Gathered true acc
      else
        let pos1 := N.lxor pos c in
        if (nodes_length_ t <=? pos1)%N then Gathered true acc
        else
          match node_at t pos1 with
          | None => Gathered true acc
          | Some n =>
              if negb (N.eqb (node_label n) (char_to_unsigned c)) then Gathered true acc
              else
                let node_has_leaf := node_has_leaf n in
                let pos2 := N.lxor pos1 (node_offset n) in
                if (nodes_length_ t <? pos2)%N then Gathered false acc
                else if node_has_leaf then
                  match node_at t pos2 with
                  | Some leaf =>
                      gather_loop t rest (i + 1) pos2
                        (acc ++ [mkTrieMatch (node_value leaf) (i + 1)])
                  | None => OutOfBoundsRead acc
                  end
                else gather_loop t rest (i + 1) pos2 acc
          end
  end.

Definition GatherPrefixMatches (t : DoubleArrayTrie) (input : list N) : GatherOutcome :=
  if (nodes_length_ t =? 0)%N then Gathered true []
  else gather_loop t input 0 (offset t 0) [].

(** The matches handed to [update_fn], whatever the outcome. *)
Definition outcome_matches (o : GatherOutcome) : list TrieMatch :=
  match o with
  | Gathered _ ms => ms
  | OutOfBoundsRead ms => ms
  end.

(** The bytes of [input] before its first zero byte. *)
Fixpoint until_zero (input : list N) : list N :=
  match input with
  | [] => []
  | c :: rest => if (c =? 0)%N then [] else c :: until_zero rest
  end.

(** [DoubleArrayTrie::FindAllPrefixMatches]: every match is pushed to
    [matches]; [None] stands for the out-of-bounds read. *)
Definition FindAllPrefixMatches (t : DoubleArrayTrie) (input : list N)
    : option (bool * list TrieMatch) :=
  match GatherPrefixMatches t input with
  | Gathered ok ms => Some (ok, ms)
  | OutOfBoundsRead _ => None
  end.

(** [DoubleArrayTrie::LongestPrefixMatch]: [*longest_match] starts as
    [empty_match] (the default [TrieMatch()], declared in
    double_array_trie.h) and is overwritten by every match. *)
Definition LongestPrefixMatch (t : DoubleArrayTrie) (input : list N) (empty_match : TrieMatch)
    : option (bool * TrieMatch) :=
  match GatherPrefixMatches t input with
  | Gathered ok ms => Some (ok, fold_left (fun _ m => m) ms empty_match)
  | OutOfBoundsRead _ => None
  end.

End Trie.

(* ------------------------------------------------------------------ *)
(** ** Reflective flatbuffer records *)

Module Reflection.

(** [reflection::BaseType] of the flatbuffers reflection schema. *)
Inductive BaseType :=
| NoneType | UType | Bool | Byte | UByte | Short | UShort | Int | UInt
| Long | ULong | Float | Double | String_ | Vector | Obj | Union.

(** [reflection::Field]: name, base type, index of the table type for an
    [Obj] field, and vtable offset. *)
Record Field := mkField {
  field_name : string;
  base_type : BaseType;
  type_index : nat;
  field_offset : Z
}.

(** [reflection::Object]: a table type and its fields. *)
Record Object := mkObject { object_name : string; object_fields : list Field }.

(** [reflection::Schema]: all table types and the root table. *)
Record Schema := mkSchema { objects : list Object; root_table : Object }.

Definition BaseType_eq_dec (a b : BaseType) : {a = b} + {a <> b}.
Proof. decide equality. Defined.

Definition Field_eq_dec (a b : Field) : {a = b} + {a <> b}.
Proof.
  decide equality; auto using string_dec, Z.eq_dec, Nat.eq_dec, BaseType_eq_dec.
Defined.

(** Field descriptors are compared by identity (the source keys its map by
    [const reflection::Field*]). *)
Definition Field_eqb (a b : Field) : bool :=
  if Field_eq_dec a b then true else false.

(** Modelled from the spec: [Variant] (utils/variant.h, not in src), the
    tagged value a field is set to; its tag is fixed by the C++ type [T]
    of the [Set<T>] call that builds it. *)
Inductive Variant :=
| VInt (v : Z)
| VInt64 (v : Z)
| VFloat (v : Q)
| VDouble (v : Q)
| VBool (v : bool)
| VString (v : string).

(** Modelled from the spec: [ReflectiveFlatbuffer::IsMatchingType]
    (utils/flatbuffers.cc, not in src): the runtime type of the value
    against the declared scalar or string type of the field; any other
    declared type (tables, vectors, unions) never matches. *)
Definition IsMatchingType (field : Field) (value : Variant) : bool :=
  match base_type field, value with
  | Bool, VBool _ => true
  | Int, VInt _ => true
  | Long, VInt64 _ => true
  | Float, VFloat _ => true
  | Double, VDouble _ => true
  | String_, VString _ => true
  | _, _ => false
  end.

(** [ReflectiveFlatbuffer]: its table type, the cached primitive fields
    [fields_] and the sub-messages [children_] keyed by vtable offset. *)
Inductive ReflectiveFlatbuffer := mkRF {
  type_ : Object;
  fields_ : list (Field * Variant);
  children_ : list (Z * ReflectiveFlatbuffer)
}.

Definition EmptyFlatbuffer (type : Object) : ReflectiveFlatbuffer := mkRF type [] [].

(** [GetFieldOrNull]: the field of the table type with the given name. *)
Definition GetFieldOrNull (r : ReflectiveFlatbuffer) (field_name' : string) : option Field :=
  find (fun f => String.eqb (field_name f) field_name') (object_fields (type_ r)).

Definition lookup_field (f : Field) (m : list (Field * Variant)) : option Variant :=
  option_map snd (find (fun p => Field_eqb (fst p) f) m).

(** [fields_[field] = value] on the [std::map]: overwrite the entry of
    the field, or add one. *)
Definition map_assign (f : Field) (v : Variant) (m : list (Field * Variant))
    : list (Field * Variant) :=
  if existsb (fun p => Field_eqb (fst p) f) m
  then map (fun p => if Field_eqb (fst p) f then (f, v) else p) m
  else m ++ [(f, v)].

(** [ReflectiveFlatbuffer::Set(const reflection::Field*, T)] for a
    non-null field. *)
Definition SetField (r : ReflectiveFlatbuffer) (field : Field) (value : Variant)
    : bool * ReflectiveFlatbuffer :=
  if negb (IsMatchingType field value) then (false, r)
  else (true, mkRF (type_ r) (map_assign field value (fields_ r)) (children_ r)).

(** [ReflectiveFlatbuffer::Set(StringPiece, T)]. *)
Definition Set_ (r : ReflectiveFlatbuffer) (field_name' : string) (value : Variant)
    : bool * ReflectiveFlatbuffer :=
  match GetFieldOrNull r field_name' with
  | Some field => SetField r field value
  | None => (false, r)
  end.

Definition lookup_child (off : Z) (cs : list (Z * ReflectiveFlatbuffer))
    : option ReflectiveFlatbuffer :=
  option_map snd (find (fun p => Z.eqb (fst p) off) cs).

Definition assign_child (off : Z) (c : ReflectiveFlatbuffer)
    (cs : list (Z * ReflectiveFlatbuffer)) : list (Z * ReflectiveFlatbuffer) :=
  if existsb (fun p => Z.eqb (fst p) off) cs
  then map (fun p => if Z.eqb (fst p) off then (off, c) else p) cs
  else cs ++ [(off, c)].

Section WithSchema.

Variable schema_ : Schema.

(** Modelled from the spec: [ReflectiveFlatbuffer::Mutable]
    (utils/flatbuffers.cc, not in src): the nested record of a table-typed
    field, created empty on first access and the same one afterwards;
    [None] ([nullptr]) for an unknown field or a non-table field.  The
    caller's mutations of the nested record are applied by [g], and the
    nested record is stored back under the field's vtable offset. *)
Definition WithMutable (r : ReflectiveFlatbuffer) (field_name' : string)
    (g : ReflectiveFlatbuffer -> bool * ReflectiveFlatbuffer)
    : bool * ReflectiveFlatbuffer :=
  match GetFieldOrNull r field_name' with
  | None => (false, r)
  | Some field =>
      match base_type field with
      | Obj =>
          let child :=
            match lookup_child (field_offset field) (children_ r) with
            | Some c => c
            | None =>
                EmptyFlatbuffer (nth (type_index field) (objects schema_)
                                   (mkObject "" []))
            end in
          let (ok, child') := g child in
          (ok, mkRF (type_ r) (fields_ r) (assign_child (field_offset field) child' (children_ r)))
      | _ => (false, r)
      end
  end.

End WithSchema.

(** Modelled from the spec: a serialized table as seen by
    [MergeFromSerializedFlatbuffer] (utils/flatbuffers.cc, not in src):
    the slots present in the buffer, keyed by vtable offset; a slot can be
    read at any scalar or string type, as [GetField<T>] does. *)
Record FbSlot := mkSlot {
  slot_bool : bool;
  slot_int : Z;
  slot_int64 : Z;
  slot_float : Q;
  slot_double : Q;
  slot_string : string
}.

Definition FbTable := list (Z * FbSlot).

(** Reading a slot at the declared type of a field. *)
Definition read_slot (t : BaseType) (s : FbSlot) : option Variant :=
  match t with
  | Bool => Some (VBool (slot_bool s))
  | Int => Some (VInt (slot_int s))
  | Long => Some (VInt64 (slot_int64 s))
  | Float => Some (VFloat (slot_float s))
  | Double => Some (VDouble (slot_double s))
  | String_ => Some (VString (slot_string s))
  | _ => None
  end.

(** Modelled from the spec: [MergeFromSerializedFlatbuffer] imports the
    fields present in the buffer, each read at its declared type and
    stored with [Set] (nested tables are merged through [Mutable], see
    [InMutable] below). *)
Definition MergeFrom (r : ReflectiveFlatbuffer) (tbl : FbTable)
    : bool * ReflectiveFlatbuffer :=
  (true,
   fold_left
     (fun r' field =>
        match find (fun p => Z.eqb (fst p) (field_offset field)) tbl with
        | None => r'
        | Some (_, slot) =>
            match read_slot (base_type field) slot with
            | Some v => snd (SetField r' field v)
            | None => r'
            end
        end)
     (object_fields (type_ r)) r).

(** The operations a client performs on a record. *)
Inductive RFOp :=
| SetByName (name : string) (v : Variant)
| SetByField (f : Field) (v : Variant)
| MergeSerialized (tbl : FbTable)
| TouchMutable (name : string)
| InMutable (name : string) (op : RFOp).

Fixpoint apply_op (schema_ : Schema) (op : RFOp) (r : ReflectiveFlatbuffer)
    : bool * ReflectiveFlatbuffer :=
  match op with
  | SetByName name v => Set_ r name v
  | SetByField f v => SetField r f v
  | MergeSerialized tbl => MergeFrom r tbl
  | TouchMutable name => WithMutable schema_ r name (fun c => (true, c))
  | InMutable name op' => WithMutable schema_ r name (apply_op schema_ op')
  end.

(** Every stored value has the type its field declares, in the record and
    in all its nested records. *)
Fixpoint well_typed (r : ReflectiveFlatbuffer) : bool :=
  match r with
  | mkRF _ fs cs =>
      forallb (fun fv => IsMatchingType (fst fv) (snd fv)) fs &&
      (fix children_ok (cs : list (Z * ReflectiveFlatbuffer)) : bool :=
         match cs with
         | [] => true
         | (_, c) :: rest => well_typed c && children_ok rest
         end) cs
  end.

End Reflection.

(* ------------------------------------------------------------------ *)
(** ** Actions suggestions: data model *)

Module Actions.

Import Reflection.

(** [ClassificationResult] of an annotation: collection and score. *)
Record ClassificationResult := mkClassification {
  collection : string;
  score : Q
}.

(** [AnnotatedSpan]: a codepoint span and its ranked classifications. *)
Record AnnotatedSpan := mkAnnotatedSpan {
  span : Z * Z;
  classification : list ClassificationResult
}.

(** [ConversationMessage]. *)
Record ConversationMessage := mkMessage {
  user_id : Z;
  text : string;
  reference_time_ms_utc : Z;
  locales : string;
  annotations : list AnnotatedSpan
}.

(** [Conversation::messages]. *)
Definition Conversation := list ConversationMessage.

(** [ActionSuggestionAnnotation]. *)
Record ActionSuggestionAnnotation := mkActionAnnotation {
  message_index : Z;
  annotation_span : Z * Z;
  entity : ClassificationResult;
  name : string;
  annotation_text : string
}.

(** [ActionSuggestion]: response text, type, score, annotations and
    serialized entity data, in the order of the aggregate initialisers
    of the source. *)
Record ActionSuggestion := mkAction {
  response_text : string;
  type : string;
  action_score : Q;
  action_annotations : list ActionSuggestionAnnotation;
  serialized_entity_data : string
}.

(** [ActionsSuggestionsResponse]. *)
Record ActionsSuggestionsResponse := mkResponse {
  actions : list ActionSuggestion;
  sensitivity_score : Q;
  triggering_score : Q;
  output_filtered_sensitivity : bool;
  output_filtered_min_triggering_score : bool;
  output_filtered_low_confidence : bool;
  output_filtered_locale_mismatch : bool
}.

(** Modelled from the spec: a default-constructed
    [ActionsSuggestionsResponse] (actions/types.h, not in src): no actions,
    scores unset ([-1]) and every filter flag cleared. *)
Definition default_response : ActionsSuggestionsResponse :=
  mkResponse [] (-1) (-1) false false false false.

Definition set_actions (r : ActionsSuggestionsResponse) (l : list ActionSuggestion) :=
  mkResponse l (sensitivity_score r) (triggering_score r)
    (output_filtered_sensitivity r) (output_filtered_min_triggering_score r)
    (output_filtered_low_confidence r) (output_filtered_locale_mismatch r).

(** [response->actions.push_back(a)]. *)
Definition push_action (r : ActionsSuggestionsResponse) (a : ActionSuggestion) :=
  set_actions r (actions r ++ [a]).

(** [response.actions.clear()]. *)
Definition clear_actions (r : ActionsSuggestionsResponse) := set_actions r [].

Definition set_triggering (r : ActionsSuggestionsResponse) (s : Q) (filtered : bool) :=
  mkResponse (actions r) (sensitivity_score r) s
    (output_filtered_sensitivity r) filtered
    (output_filtered_low_confidence r) (output_filtered_locale_mismatch r).

Definition set_sensitivity (r : ActionsSuggestionsResponse) (s : Q) (filtered : bool) :=
  mkResponse (actions r) s (triggering_score r)
    filtered (output_filtered_min_triggering_score r)
    (output_filtered_low_confidence r) (output_filtered_locale_mismatch r).

Definition set_low_confidence (r : ActionsSuggestionsResponse) :=
  mkResponse (actions r) (sensitivity_score r) (triggering_score r)
    (output_filtered_sensitivity r) (output_filtered_min_triggering_score r)
    true (output_filtered_locale_mismatch r).

Definition set_locale_mismatch (r : ActionsSuggestionsResponse) :=
  mkResponse (actions r) (sensitivity_score r) (triggering_score r)
    (output_filtered_sensitivity r) (output_filtered_min_triggering_score r)
    (output_filtered_low_confidence r) true.

(** [ActionSuggestionSpec] of the model. *)
Record ActionSuggestionSpec := mkActionSpec {
  spec_type : string;
  spec_response_text : option string;
  spec_score : Q;
  spec_serialized_entity_data : option string
}.

(** [RuleActionSpec_::CapturingGroup]. *)
Record CapturingGroup := mkCapturingGroup { group_id : Z; entity_field : string }.

(** [Rule_::RuleActionSpec]. *)
Record RuleActionSpec := mkRuleActionSpec {
  action : ActionSuggestionSpec;
  capturing_group : option (list CapturingGroup)
}.

(** [RulesModel_::Rule]. *)
Record Rule := mkRule { pattern : string; rule_actions : list RuleActionSpec }.

(** [CompiledRule]: the rule and its compiled pattern (a handle of the
    regex engine). *)
Record CompiledRule := mkCompiledRule { rule : Rule; compiled_pattern : string }.

(** [AnnotationActionsSpec_::AnnotationMapping]. *)
Record AnnotationMapping := mkAnnotationMapping {
  annotation_collection : string;
  mapping_action : ActionSuggestionSpec;
  use_annotation_score : bool;
  min_annotation_score : Q
}.

(** [AnnotationActionsSpec]. *)
Record AnnotationActionsSpec := mkAnnotationActionsSpec {
  annotation_mapping : option (list AnnotationMapping);
  deduplicate_annotations : bool
}.

(** [TriggeringPreconditions]. *)
Record TriggeringPreconditions := mkPreconditions {
  min_smart_reply_triggering_score : Q;
  max_sensitive_topic_score : Q;
  suppress_on_sensitive_topic : bool;
  min_input_length : Z;
  max_input_length : Z;
  min_locale_match_fraction : Q;
  handle_missing_locale_as_supported : bool;
  handle_unknown_locale_as_supported : bool;
  suppress_on_low_confidence_input : bool
}.

(** [TensorflowLiteModelSpec]: tensor indices, negative when absent. *)
Record TensorflowLiteModelSpec := mkModelSpec {
  output_replies : Z;
  output_replies_scores : Z;
  output_sensitive_topic_score : Z;
  output_triggering_score : Z;
  output_actions_scores : Z
}.

(** [ActionTypeOptions]. *)
Record ActionTypeOptions := mkActionType {
  type_name : string;
  enabled : bool;
  min_triggering_score : Q
}.

(** [ActionsModel]. *)
Record ActionsModel := mkModel {
  max_conversation_history_length : Z;
  num_smart_replies : Z;
  smart_reply_action_type : string;
  action_type : list ActionTypeOptions;
  preconditions : TriggeringPreconditions;
  tflite_model_spec : TensorflowLiteModelSpec;
  annotation_actions_spec : option AnnotationActionsSpec
}.

(** An output tensor seen through [TensorView<float>]. *)
Record TensorView := mkTensorView { dims : list Z; data : list Q }.

Definition tv_size (v : TensorView) : Z := Z.of_nat (length (data v)).
Definition tv_dim0 (v : TensorView) : Z := nth 0 (dims v) 0.
Definition tv_at (v : TensorView) (i : nat) : Q := nth i (data v) 0%Q.

(** An invoked interpreter: [OutputView<float>(index)] ([None] when the
    view is not valid) and [Output<StringRef>(index)]. *)
Record Interpreter := mkInterpreter {
  output_view : Z -> option TensorView;
  output_strings : Z -> list string
}.

(** The inputs [SetupModelInput] writes into the interpreter. *)
Record ModelInput := mkModelInput {
  input_context : list string;
  input_user_ids : list Z;
  input_time_diffs : list Q;
  input_num_suggestions : Z
}.

(** [TfLiteModelExecutor]: creating an interpreter, allocating its
    tensors, setting up the inputs and [Invoke]; [None] when any of these
    fails. *)
Record TfLiteModelExecutor := mkExecutor {
  run_interpreter : ModelInput -> option Interpreter
}.

(** The state of an initialised [ActionsSuggestions]. *)
Record ActionsSuggestions := mkActionsSuggestions {
  model_ : ActionsModel;
  locales_ : list Locale;
  rules_ : list CompiledRule;
  low_confidence_rules_ : list CompiledRule;
  model_executor_ : option TfLiteModelExecutor
}.

(** [ActionSuggestionOptions]. *)
Record ActionSuggestionOptions := mkOptions {
  ignore_min_replies_triggering_threshold : bool
}.

(** One call of [RegexMatcher::Find(&status)]: its result, the status it
    wrote, and the capturing groups of the match found. *)
Record FindResult := mkFind {
  find_found : bool;
  find_status : Z;
  find_groups : list (option string)
}.

Definition kNoError : Z := 0.

(** The collaborators of the code above. [regex_find p s] is the sequence
    of results of the successive [Find] calls of a fresh matcher of
    pattern [p] over [s]; after the sequence [Find] returns [false]. *)
Record Env := mkEnv {
  regex_find : string -> string -> list FindResult;
  annotator : option (string -> list AnnotatedSpan);
  utf8_substring : string -> Z -> Z -> string;
  parse_locales : string -> option (list Locale);
  new_root : ReflectiveFlatbuffer;
  merge_serialized : string -> ReflectiveFlatbuffer -> ReflectiveFlatbuffer;
  set_field_from_capturing_group :
    Z -> string -> list (option string) -> ReflectiveFlatbuffer -> option ReflectiveFlatbuffer;
  serialize : ReflectiveFlatbuffer -> string;
  rank_actions : ActionsSuggestionsResponse -> bool * ActionsSuggestionsResponse
}.

(* ------------------------------------------------------------------ *)
(** ** Actions suggestions: operations *)

Section Suggestions.

Variable self : ActionsSuggestions.
Variable env : Env.

Let model := model_ self.
Let pre := preconditions (model_ self).
Let spec := tflite_model_spec (model_ self).

(** [ActionsSuggestions::IsLocaleSupportedByModel]. *)
Definition IsLocaleSupportedByModel (locale : Locale) : bool :=
  if negb (IsValid locale) then false
  else if IsUnknown locale then handle_unknown_locale_as_supported pre
  else model_locales_loop (locales_ self) locale.

(** [ActionsSuggestions::IsAnyLocaleSupportedByModel]. *)
Definition IsAnyLocaleSupportedByModel (ls : list Locale) : bool :=
  match ls with
  | [] => handle_missing_locale_as_supported pre
  | _ => existsb IsLocaleSupportedByModel ls
  end.

(** The first [Find] of a fresh matcher succeeds without error. *)
Definition first_find_matches (cr : CompiledRule) (s : string) : bool :=
  match regex_find env (compiled_pattern cr) s with
  | f :: _ => find_found f && Z.eqb (find_status f) kNoError
  | [] => false
  end.

Definition empty_message : ConversationMessage := mkMessage 0 "" 0 "" [].

(** [ActionsSuggestions::IsLowConfidenceInput]: messages
    [size - 1, size - 2, ..., size - num_messages]. *)
Definition IsLowConfidenceInput (conversation : Conversation) (num_messages : Z) : bool :=
  existsb
    (fun i =>
       let message := text (nth (length conversation - i) conversation empty_message) in
       existsb (fun cr => first_find_matches cr message) (low_confidence_rules_ self))
    (seq 1 (Z.to_nat num_messages)).

(** The time differences computed while gathering the model inputs. *)
Fixpoint time_diffs_loop (msgs : list ConversationMessage) (last_ms : Z) : list Q :=
  match msgs with
  | [] => []
  | message :: rest =>
      let t := reference_time_ms_utc message in
      let time_diff_secs :=
        if negb (Z.eqb t 0) && negb (Z.eqb last_ms 0)
        then Qmax 0 (inject_Z (t - last_ms) / inject_Z 1000)
        else 0%Q in
      time_diff_secs :: time_diffs_loop rest (if negb (Z.eqb t 0) then t else last_ms)
  end.

(** Reading the triggering score: [None] when [ReadModelOutput] returns
    on an invalid or empty output. *)
Definition read_triggering_score (interpreter : Interpreter)
    (options : ActionSuggestionOptions) (r : ActionsSuggestionsResponse)
    : option ActionsSuggestionsResponse :=
  if 0 <=? output_triggering_score spec then
    match output_view interpreter (output_triggering_score spec) with
    | Some v =>
        if tv_size v =? 0 then None
        else
          let s := tv_at v 0 in
          Some (set_triggering r s
                  (negb (ignore_min_replies_triggering_threshold options) &&
                   Qltb s (min_smart_reply_triggering_score pre)))
    | None => None
    end
  else Some r.

(** Reading the sensitivity score: [None] when [ReadModelOutput] returns
    on an invalid output or one whose first dimension is not 1. *)
Definition read_sensitivity_score (interpreter : Interpreter)
    (r : ActionsSuggestionsResponse) : option ActionsSuggestionsResponse :=
  if 0 <=? output_sensitive_topic_score spec then
    match output_view interpreter (output_sensitive_topic_score spec) with
    | Some v =>
        if negb (tv_dim0 v =? 1) then None
        else
          let s := tv_at v 0 in
          Some (set_sensitivity r s (Qltb (max_sensitive_topic_score pre) s))
    | None => None
    end
  else Some r.

Fixpoint replies_loop (replies : list string) (i : nat) (score_at : nat -> Q)
    (r : ActionsSuggestionsResponse) : ActionsSuggestionsResponse :=
  match replies with
  | [] => r
  | reply :: rest =>
      let r' :=
        if Nat.eqb (String.length reply) 0 then r
        else push_action r (mkAction reply (smart_reply_action_type model) (score_at i) [] "") in
      replies_loop rest (S i) score_at r'
  end.

(** Reading the smart replies. *)
Definition read_smart_replies (interpreter : Interpreter) (r : ActionsSuggestionsResponse)
    : ActionsSuggestionsResponse :=
  if negb (output_filtered_min_triggering_score r) && (0 <=? output_replies spec) then
    let replies := output_strings interpreter (output_replies spec) in
    let score_at i :=
      match output_view interpreter (output_replies_scores spec) with
      | Some v => tv_at v i
      | None => 0%Q
      end in
    replies_loop replies 0 score_at r
  else r.

Fixpoint action_types_loop (types : list ActionTypeOptions) (i : nat) (score_at : nat -> Q)
    (r : ActionsSuggestionsResponse) : ActionsSuggestionsResponse :=
  match types with
  | [] => r
  | t :: rest =>
      let r' :=
        if negb (enabled t) then r
        else
          let s := score_at i in
          if Qltb s (min_triggering_score t) then r
          else push_action r (mkAction "" (type_name t) s [] "") in
      action_types_loop rest (S i) score_at r'
  end.

(** Reading the action class scores. *)
Definition read_action_scores (interpreter : Interpreter) (r : ActionsSuggestionsResponse)
    : ActionsSuggestionsResponse :=
  if 0 <=? output_actions_scores spec then
    let score_at i :=
      match output_view interpreter (output_actions_scores spec) with
      | Some v => tv_at v i
      | None => 0%Q
      end in
    action_types_loop (action_type model) 0 score_at r
  else r.

(** [ActionsSuggestions::ReadModelOutput]. *)
Definition ReadModelOutput (interpreter : Interpreter) (options : ActionSuggestionOptions)
    (r : ActionsSuggestionsResponse) : ActionsSuggestionsResponse :=
  match read_triggering_score interpreter options r with
  | None => r
  | Some r1 =>
      match read_sensitivity_score interpreter r1 with
      | None => r1
      | Some r2 =>
          (* Suppress model outputs. *)
          if output_filtered_sensitivity r2 then r2
          else read_action_scores interpreter (read_smart_replies interpreter r2)
      end
  end.

(** The inputs gathered from the last [num_messages] messages. *)
Definition model_input (conversation : Conversation) (num_messages : Z) : ModelInput :=
  let msgs := lastn num_messages conversation in
  mkModelInput (map text msgs) (map user_id msgs) (time_diffs_loop msgs 0)
    (num_smart_replies model).

(** [ActionsSuggestions::SuggestActionsFromModel]. *)
Definition SuggestActionsFromModel (conversation : Conversation) (num_messages : Z)
    (options : ActionSuggestionOptions) (r : ActionsSuggestionsResponse)
    : ActionsSuggestionsResponse :=
  match model_executor_ self with
  | None => r
  | Some executor =>
      match run_interpreter executor (model_input conversation num_messages) with
      | None => r
      | Some interpreter => ReadModelOutput interpreter options r
      end
  end.

(** The key of the [std::map] of [DeduplicateAnnotations] and its
    ordering ([std::pair] of [std::string], lexicographic). *)
Definition DedupKey := (string * string)%type.

Definition key_compare (a b : DedupKey) : comparison :=
  match String.compare (fst a) (fst b) with
  | Eq => String.compare (snd a) (snd b)
  | c => c
  end.

Definition key_eqb (a b : DedupKey) : bool :=
  String.eqb (fst a) (fst b) && String.eqb (snd a) (snd b).

Definition map_find (k : DedupKey) (m : list (DedupKey * nat)) : option nat :=
  option_map snd (find (fun p => key_eqb (fst p) k) m).

(** [std::map::insert] of a key that is absent, keeping keys sorted. *)
Fixpoint map_insert (k : DedupKey) (v : nat) (m : list (DedupKey * nat))
    : list (DedupKey * nat) :=
  match m with
  | [] => [(k, v)]
  | (k', v') :: rest =>
      match key_compare k k' with
      | Lt => (k, v) :: m
      | _ => (k', v') :: map_insert k v rest
      end
  end.

(** [entry->second = i]. *)
Definition map_update (k : DedupKey) (v : nat) (m : list (DedupKey * nat))
    : list (DedupKey * nat) :=
  map (fun p => if key_eqb (fst p) k then (fst p, v) else p) m.

Definition dedup_key (a : ActionSuggestionAnnotation) : DedupKey :=
  (name a, annotation_text a).

(** One iteration of the loop of [DeduplicateAnnotations]. *)
Definition dedup_step (annotations : list ActionSuggestionAnnotation)
    (m : list (DedupKey * nat)) (i : nat) : list (DedupKey * nat) :=
  match nth_error annotations i with
  | None => m
  | Some a =>
      let key := dedup_key a in
      match map_find key m with
      | Some j =>
          (* Keep the annotation with the higher score. *)
          if Qltb (score (entity (nth j annotations a))) (score (entity a))
          then map_update key i m
          else m
      | None => map_insert key i m
      end
  end.

Definition empty_action_annotation : ActionSuggestionAnnotation :=
  mkActionAnnotation 0 (0, 0) (mkClassification "" 0) "" "".

(** [ActionsSuggestions::DeduplicateAnnotations]. *)
Definition DeduplicateAnnotations (annotations : list ActionSuggestionAnnotation) : list nat :=
  map snd (fold_left (dedup_step annotations) (seq 0 (length annotations)) []).

(** The deduplication key and the score of the annotation at index [j]. *)
Definition ann_key (annotations : list ActionSuggestionAnnotation) (j : nat) : DedupKey :=
  dedup_key (nth j annotations empty_action_annotation).

Definition ann_score (annotations : list ActionSuggestionAnnotation) (j : nat) : Q :=
  score (entity (nth j annotations empty_action_annotation)).

(** The state of the loop of [DeduplicateAnnotations] after [n]
    iterations: keys are unique; each entry maps the key of an earlier
    annotation to an earlier annotation with that key whose score is
    maximal among those seen and strictly above every one before it; every
    key seen has an entry. *)
Definition dedup_inv (annotations : list ActionSuggestionAnnotation) (n : nat)
    (m : list (DedupKey * nat)) : Prop :=
  NoDup (map fst m) /\
  (forall k i, In (k, i) m ->
     k = ann_key annotations i /\ (i < n)%nat /\
     (forall j, (j < n)%nat -> ann_key annotations j = k ->
        (ann_score annotations j <= ann_score annotations i)%Q) /\
     (forall j, (j < i)%nat -> ann_key annotations j = k ->
        (ann_score annotations j < ann_score annotations i)%Q)) /\
  (forall j, (j < n)%nat -> exists i, In (ann_key annotations j, i) m).

Definition annotation_mappings : list AnnotationMapping :=
  match annotation_actions_spec model with
  | Some aspec => match annotation_mapping aspec with Some l => l | None => [] end
  | None => []
  end.

(** [ActionsSuggestions::CreateActionsFromAnnotation]. *)
Definition CreateActionsFromAnnotation (message_index' : Z) (annotation : ActionSuggestionAnnotation)
    (r : ActionsSuggestionsResponse) : ActionsSuggestionsResponse :=
  fold_left
    (fun r mapping =>
       if String.eqb (collection (entity annotation)) (annotation_collection mapping) then
         if Qltb (score (entity annotation)) (min_annotation_score mapping) then r
         else
           let s :=
             if use_annotation_score mapping then score (entity annotation)
             else spec_score (mapping_action mapping) in
           let serialized :=
             match spec_serialized_entity_data (mapping_action mapping) with
             | Some d => d
             | None => ""
             end in
           push_action r (mkAction "" (spec_type (mapping_action mapping)) s [annotation] serialized)
       else r)
    annotation_mappings r.

(** The [ActionSuggestionAnnotation] built from an annotation of the last
    message, from its top classification. *)
Definition to_action_annotation (message_index' : Z) (message_text : string) (a : AnnotatedSpan)
    : list ActionSuggestionAnnotation :=
  match classification a with
  | [] => []
  | classification_result :: _ =>
      [mkActionAnnotation message_index' (span a) classification_result
         (collection classification_result)
         (utf8_substring env message_text (fst (span a)) (snd (span a)))]
  end.

(** [ActionsSuggestions::SuggestActionsFromAnnotations]. *)
Definition SuggestActionsFromAnnotations (conversation : Conversation)
    (r : ActionsSuggestionsResponse) : ActionsSuggestionsResponse :=
  match annotation_actions_spec model with
  | None => r
  | Some aspec =>
      match annotation_mapping aspec with
      | None => r
      | Some [] => r
      | Some _ =>
          let last_message := last conversation empty_message in
          let annotations :=
            match annotations last_message, annotator env with
            | [], Some annotate => annotate (text last_message)
            | l, _ => l
            end in
          let message_index' := Z.of_nat (length conversation) - 1 in
          let action_annotations :=
            flat_map (to_action_annotation message_index' (text last_message)) annotations in
          if deduplicate_annotations aspec then
            (* Create actions only for deduplicated annotations. *)
            fold_left
              (fun r annotation_id =>
                 CreateActionsFromAnnotation message_index'
                   (nth annotation_id action_annotations empty_action_annotation) r)
              (DeduplicateAnnotations action_annotations) r
          else
            (* Create actions for all annotations. *)
            fold_left (fun r annotation => CreateActionsFromAnnotation message_index' annotation r)
              action_annotations r
      end
  end.

(** [ActionsSuggestions::HasEntityData]. *)
Definition HasEntityData (rule' : Rule) : bool :=
  existsb
    (fun ra => match spec_serialized_entity_data (action ra), capturing_group ra with
               | None, None => false
               | _, _ => true
               end)
    (rule_actions rule').

(** Setting the entity fields from the capturing groups of a match, in
    order, stopping at the first failure. *)
Fixpoint capturing_groups_loop (groups : list CapturingGroup) (match_groups : list (option string))
    (entity_data : ReflectiveFlatbuffer) : option ReflectiveFlatbuffer :=
  match groups with
  | [] => Some entity_data
  | group :: rest =>
      match set_field_from_capturing_group env (group_id group) (entity_field group)
              match_groups entity_data with
      | None => None
      | Some entity_data' => capturing_groups_loop rest match_groups entity_data'
      end
  end.

(** The serialized entity data of one rule action for one match; [None]
    when setting a capturing group failed. *)
Definition rule_entity_data (has_entity_data : bool) (rule_action : RuleActionSpec)
    (match_groups : list (option string)) : option string :=
  if has_entity_data then
    let entity_data := new_root env in
    (* Set static entity data. *)
    let entity_data :=
      match spec_serialized_entity_data (action rule_action) with
      | Some d => merge_serialized env d entity_data
      | None => entity_data
      end in
    (* Add entity data from rule capturing groups. *)
    match capturing_group rule_action with
    | Some groups =>
        match capturing_groups_loop groups match_groups entity_data with
        | None => None
        | Some entity_data' => Some (serialize env entity_data')
        end
    | None => Some (serialize env entity_data)
    end
  else Some "".

Definition rule_suggestion (a : ActionSuggestionSpec) (serialized : string) : ActionSuggestion :=
  mkAction (match spec_response_text a with Some t => t | None => "" end)
    (spec_type a) (spec_score a) [] serialized.

(** The [for] loop over the actions of a rule, for one match. *)
Fixpoint rule_actions_loop (has_entity_data : bool) (ras : list RuleActionSpec)
    (match_groups : list (option string)) (r : ActionsSuggestionsResponse)
    : bool * ActionsSuggestionsResponse :=
  match ras with
  | [] => (true, r)
  | rule_action :: rest =>
      match rule_entity_data has_entity_data rule_action match_groups with
      | None => (false, r)
      | Some serialized =>
          rule_actions_loop has_entity_data rest match_groups
            (push_action r (rule_suggestion (action rule_action) serialized))
      end
  end.

(** [while (matcher->Find(&status) && status == kNoError)]. *)
Fixpoint matches_loop (rule' : Rule) (has_entity_data : bool) (finds : list FindResult)
    (r : ActionsSuggestionsResponse) : bool * ActionsSuggestionsResponse :=
  match finds with
  | [] => (true, r)
  | f :: rest =>
      if find_found f && Z.eqb (find_status f) kNoError then
        match rule_actions_loop has_entity_data (rule_actions rule') (find_groups f) r with
        | (false, r') => (false, r')
        | (true, r') => matches_loop rule' has_entity_data rest r'
        end
      else (true, r)
  end.

(** The [for (const CompiledRule& rule : rules_)] loop. *)
Fixpoint rules_loop (rules : list CompiledRule) (message : string)
    (r : ActionsSuggestionsResponse) : bool * ActionsSuggestionsResponse :=
  match rules with
  | [] => (true, r)
  | cr :: rest =>
      match matches_loop (rule cr) (HasEntityData (rule cr))
              (regex_find env (compiled_pattern cr) message) r with
      | (false, r') => (false, r')
      | (true, r') => rules_loop rest message r'
      end
  end.

(** [ActionsSuggestions::SuggestActionsFromRules]. *)
Definition SuggestActionsFromRules (conversation : Conversation) (r : ActionsSuggestionsResponse)
    : bool * ActionsSuggestionsResponse :=
  rules_loop (rules_ self) (text (last conversation empty_message)) r.

(** [num_messages] of [GatherActionsSuggestions]: the conversation
    length clamped by [max_conversation_history_length] unless negative. *)
Definition num_messages_of (conversation : Conversation) : Z :=
  let conversation_history_length := Z.of_nat (length conversation) in
  let max_conversation_history_length' := max_conversation_history_length model in
  if (max_conversation_history_length' <? 0) ||
     (conversation_history_length <? max_conversation_history_length')
  then conversation_history_length
  else max_conversation_history_length'.

(** [input_text_length]: the bytes of the selected messages. *)
Definition input_text_length_of (conversation : Conversation) (num_messages : Z) : Z :=
  fold_left (fun acc m => acc + Z.of_nat (String.length (text m)))
    (lastn num_messages conversation) 0.

(** [num_matching_locales]: the selected messages whose locales parse and
    are supported. *)
Definition num_matching_locales_of (conversation : Conversation) (num_messages : Z) : Z :=
  fold_left
    (fun acc m =>
       match parse_locales env (locales m) with
       | None => acc
       | Some message_locales =>
           if IsAnyLocaleSupportedByModel message_locales then acc + 1 else acc
       end)
    (lastn num_messages conversation) 0.

(** [GatherActionsSuggestions] after the input length check: the locale
    check, the low confidence check, the model, the sensitivity check and
    the rules. *)
Definition GatherAfterLengthCheck (conversation : Conversation) (options : ActionSuggestionOptions)
    (num_messages num_matching_locales : Z) (r : ActionsSuggestionsResponse)
    : bool * ActionsSuggestionsResponse :=
  (* Bail out if the text does not look like it can be handled by the model. *)
  if Qltb (inject_Z num_matching_locales / inject_Z num_messages) (min_locale_match_fraction pre)
  then (true, set_locale_mismatch r)
  else if IsLowConfidenceInput conversation num_messages
  then (true, set_low_confidence r)
  else
    let r := SuggestActionsFromModel conversation num_messages options r in
    (* Suppress all predictions if the conversation was deemed sensitive. *)
    if suppress_on_sensitive_topic pre && output_filtered_sensitivity r then (true, r)
    else
      match SuggestActionsFromRules conversation r with
      | (false, r') => (false, r')
      | (true, r') => (true, r')
      end.

(** [ActionsSuggestions::GatherActionsSuggestions] on a fresh response;
    the [return response;] of the length check converts a non-null
    pointer to [true]. *)
Definition GatherActionsSuggestions (conversation : Conversation) (options : ActionSuggestionOptions)
    : bool * ActionsSuggestionsResponse :=
  let r := default_response in
  match conversation with
  | [] => (true, r)
  | _ =>
      let num_messages := num_messages_of conversation in
      if num_messages <=? 0 then (false, r)
      else
        let r := SuggestActionsFromAnnotations conversation r in
        let input_text_length := input_text_length_of conversation num_messages in
        let num_matching_locales := num_matching_locales_of conversation num_messages in
        (* Bail out if we are provided with too few or too much input. *)
        if (input_text_length <? min_input_length pre) ||
           ((0 <=? max_input_length pre) && (max_input_length pre <? input_text_length))
        then (true, r)
        else GatherAfterLengthCheck conversation options num_messages num_matching_locales r
  end.

(** [ActionsSuggestions::SuggestActions]; the ranker is [rank_actions]. *)
Definition SuggestActions (conversation : Conversation) (options : ActionSuggestionOptions)
    : ActionsSuggestionsResponse :=
  match GatherActionsSuggestions conversation options with
  | (false, r) => clear_actions r
  | (true, r) =>
      match rank_actions env r with
      | (false, r') => clear_actions r'
      | (true, r') => r'
      end
  end.

End Suggestions.

(** Everything of a response but its actions. *)
Definition response_status (r : ActionsSuggestionsResponse) :=
  (sensitivity_score r, triggering_score r, output_filtered_sensitivity r,
   output_filtered_min_triggering_score r, output_filtered_low_confidence r,
   output_filtered_locale_mismatch r).

(** Modelled from the spec: the contract of
    [ActionsSuggestionsRanker::RankActions] (actions/ranker.cc, not in
    src): it filters and reorders the actions in place and leaves the
    rest of the response alone. *)
Definition ranker_filters (env : Env) : Prop :=
  forall r, response_status (snd (rank_actions env r)) = response_status r /\
            incl (actions (snd (rank_actions env r))) (actions r).

(** The successful matches of a rule: the results of [Find] up to the
    first one that finds nothing or reports an error. *)
Fixpoint successful_finds (finds : list FindResult) : list FindResult :=
  match finds with
  | [] => []
  | f :: rest =>
      if find_found f && Z.eqb (find_status f) kNoError then f :: successful_finds rest else []
  end.

(** The suggestion described for one action spec of a rule and one match:
    the declared response text (empty if none), the type, the static score
    and the serialized entity data, empty when the rule has none. *)
Definition described_action (env : Env) (has_entity_data : bool) (ra : RuleActionSpec)
    (match_groups : list (option string)) : ActionSuggestion :=
  mkAction (match spec_response_text (action ra) with Some t => t | None => "" end)
    (spec_type (action ra)) (spec_score (action ra)) []
    (if has_entity_data then
       match rule_entity_data env true ra match_groups with Some d => d | None => "" end
     else "").

(** The suggestions described for the rule pass over [message]: one per
    rule, per successful match and per action spec of the rule, in order. *)
Definition described_rule_actions (env : Env) (rules : list CompiledRule) (message : string)
    : list ActionSuggestion :=
  flat_map (fun cr =>
      flat_map (fun f =>
          map (fun ra => described_action env (HasEntityData (rule cr)) ra (find_groups f))
            (rule_actions (rule cr)))
        (successful_finds (regex_find env (compiled_pattern cr) message)))
    rules.



(** A smart reply as [ReadModelOutput] appends it. *)
Definition model_reply_action (m : ActionsModel) (a : ActionSuggestion) : Prop :=
  response_text a <> "" /\ type a = smart_reply_action_type m /\
  action_annotations a = [] /\ serialized_entity_data a = "".

(** An action class suggestion as [ReadModelOutput] appends it. *)
Definition model_class_action (m : ActionsModel) (a : ActionSuggestion) : Prop :=
  response_text a = "" /\ action_annotations a = [] /\ serialized_entity_data a = "" /\
  exists t, In t (action_type m) /\ enabled t = true /\ type a = type_name t /\
            (min_triggering_score t <= action_score a)%Q.

(** An action that [CreateActionsFromAnnotation] builds from annotation
    [ann]: empty text, [ann] as its only annotation, and the type, score
    and entity data of a mapping of the model whose collection is that of
    [ann] and whose threshold the annotation score reaches. *)
Definition mapped_annotation_action (self : ActionsSuggestions) (ann : ActionSuggestionAnnotation)
    (a : ActionSuggestion) : Prop :=
  response_text a = "" /\ action_annotations a = [ann] /\
  exists mapping,
    In mapping (annotation_mappings self) /\
    annotation_collection mapping = collection (entity ann) /\
    (min_annotation_score mapping <= score (entity ann))%Q /\
    type a = spec_type (mapping_action mapping) /\
    action_score a = (if use_annotation_score mapping then score (entity ann)
                      else spec_score (mapping_action mapping)) /\
    serialized_entity_data a =
      match spec_serialized_entity_data (mapping_action mapping) with Some d => d | None => "" end.

(** An action of [SuggestActionsFromAnnotations]: built from an
    annotation of message [message_index'] named after its collection. *)
Definition annotation_action (self : ActionsSuggestions) (message_index' : Z)
    (a : ActionSuggestion) : Prop :=
  exists ann, message_index ann = message_index' /\ name ann = collection (entity ann) /\
              mapped_annotation_action self ann a.

End Actions.

(* ================================================================== *)
(** * Concrete configurations *)

(** Small configurations on which the properties below are evaluated. *)
Module Examples.

Import Reflection Actions.

Definition loc_en : Locale := mkLocale "en" "" "" true.
Definition loc_en_US : Locale := mkLocale "en" "" "US" true.

(** Preconditions with no input bounds, no locale requirement and
    sensitivity suppression on above [1/2]. *)
Definition ex_preconditions (min_len max_len : Z) : TriggeringPreconditions :=
  mkPreconditions 0 (1 # 2) true min_len max_len 0 true false false.

(** Tensor 0 is the triggering score, tensor 1 the sensitivity score. *)
Definition ex_model_spec : TensorflowLiteModelSpec := mkModelSpec (-1) (-1) 1 0 (-1).

Definition ex_model (max_len : Z) : ActionsModel :=
  mkModel (-1) 0 "text_reply" [] (ex_preconditions 0 max_len) ex_model_spec None.

(** A rule on the pattern "hi" with one action and no entity data. *)
Definition ex_action_spec : ActionSuggestionSpec := mkActionSpec "greeting" None (9 # 10) None.
Definition ex_rule : Rule := mkRule "hi" [mkRuleActionSpec ex_action_spec None].
Definition ex_rule_action : ActionSuggestion := mkAction "" "greeting" (9 # 10) [] "".

(** An interpreter whose sensitivity output is [0.9]; its triggering
    output is [trig] ([None]: not a valid view). *)
Definition ex_interpreter (trig : option TensorView) : Interpreter :=
  mkInterpreter
    (fun i => if Z.eqb i 0 then trig
              else if Z.eqb i 1 then Some (mkTensorView [1] [9 # 10]) else None)
    (fun _ => []).

Definition ex_self (max_len : Z) (executor : option TfLiteModelExecutor) : ActionsSuggestions :=
  mkActionsSuggestions (ex_model max_len) [loc_en] [mkCompiledRule ex_rule "hi"] [] executor.

Definition ex_executor (trig : option TensorView) : TfLiteModelExecutor :=
  mkExecutor (fun _ => Some (ex_interpreter trig)).

(** Collaborators: the matcher of "hi" finds [finds], locales never parse,
    the entity builder does nothing and the ranker keeps everything. *)
Definition ex_env (finds : list FindResult) : Env :=
  mkEnv
    (fun p _ => if String.eqb p "hi" then finds else [])
    None
    (fun s _ _ => s)
    (fun _ => None)
    (EmptyFlatbuffer (mkObject "" []))
    (fun _ r => r)
    (fun _ _ _ r => Some r)
    (fun _ => "")
    (fun r => (true, r)).

Definition ex_conversation : Conversation := [mkMessage 1 "hi" 0 "en" []].

Definition ex_options : ActionSuggestionOptions := mkOptions false.

(** One match, then a [Find] that reports an error status. *)
Definition finds_then_error : list FindResult := [mkFind true kNoError []; mkFind true 1 []].

(** One match, then no more. *)
Definition finds_once : list FindResult := [mkFind true kNoError []].

(** A two-node trie: the root's children start at [96], so the byte
    ['a'] (97) leads to node 1, labelled ['a'], whose child offset is
    [child_offset]. *)
Definition ex_trie (child_offset : N) : Trie.DoubleArrayTrie :=
  Trie.mkTrie [Trie.mkNode 0 96 false 0; Trie.mkNode 97 child_offset false 0].

(** Two annotations of the collection "date" over "tomorrow", scored
    0.4 and 0.8. *)
Definition ex_dedup_anns : list ActionSuggestionAnnotation :=
  [mkActionAnnotation 0 (0, 8) (mkClassification "date" (2 # 5)) "date" "tomorrow";
   mkActionAnnotation 0 (0, 8) (mkClassification "date" (4 # 5)) "date" "tomorrow"].

(** A trie whose child positions all stay inside the array: the root
    (offset 0) and a leaf-marked node of label 1 whose child is the root. *)
Definition ex_trie_closed : Trie.DoubleArrayTrie :=
  Trie.mkTrie [Trie.mkNode 0 0 false 3; Trie.mkNode 1 1 true 5].

(** [ex_self (-1) None] with [max_conversation_history_length = 0]. *)
Definition ex_self_no_history : ActionsSuggestions :=
  mkActionsSuggestions
    (mkModel 0 0 "text_reply" [] (ex_preconditions 0 (-1)) ex_model_spec None)
    [loc_en] [mkCompiledRule ex_rule "hi"] [] None.

(** [ex_self (-1) None] requiring a locale match fraction of [2]. *)
Definition ex_self_strict_locales : ActionsSuggestions :=
  mkActionsSuggestions
    (mkModel (-1) 0 "text_reply" [] (mkPreconditions 0 (1 # 2) true 0 (-1) 2 true false false)
       ex_model_spec None)
    [loc_en] [mkCompiledRule ex_rule "hi"] [] None.

End Examples.

(* ================================================================== *)
(** * Properties *)

(* ------------------------------------------------------------------ *)
(** ** Locale matching *)

Lemma string_empty_iff (s : string) : string_empty s = true <-> s = "".
Proof. unfold string_empty. apply String.eqb_eq. Qed.

Lemma locale_components_match_iff (ml l : Locale) :
  locale_components_match ml l = true <->
  (Language ml = "" \/ Language ml = kAnyMatch \/ Language ml = Language l) /\
  (Script ml = "" \/ Script ml = kAnyMatch \/ Script ml = Script l \/ Script l = "") /\
  (Region ml = "" \/ Region ml = kAnyMatch \/ Region ml = Region l \/ Region l = "").
Proof.
  unfold locale_components_match, language_matches, script_matches, region_matches,
    string_empty.
  repeat rewrite andb_true_iff. repeat rewrite orb_true_iff.
  repeat rewrite String.eqb_eq. tauto.
Qed.

Lemma model_locales_loop_iff (ls : list Locale) (l : Locale) :
  model_locales_loop ls l = true <->
  exists ml, In ml ls /\ IsValid ml = true /\ locale_components_match ml l = true.
Proof.
  induction ls as [|ml rest IH]; simpl.
  - split; [discriminate | intros (? & [] & _)].
  - destruct (IsValid ml) eqn:V; simpl.
    + destruct (locale_components_match ml l) eqn:M.
      * split; [intros _; exists ml; auto | reflexivity].
      * rewrite IH. split.
        -- intros (x & Hin & Hv & Hm). exists x; auto.
        -- intros (x & [<-|Hin] & Hv & Hm); [congruence | exists x; auto].
    + rewrite IH. split.
      * intros (x & Hin & Hv & Hm). exists x; auto.
      * intros (x & [<-|Hin] & Hv & Hm); [congruence | exists x; auto].
Qed.

Module LocaleProps.

Import Actions Examples.

(** C4: for a valid, non-unknown candidate locale, when every locale the
    model declares is valid (as [ParseLocales] guarantees at
    initialisation), a declared locale matches the candidate exactly when
    each of language, script and region matches (the model field is
    empty, ["*"], or equal to the candidate's; for script and region also
    when the candidate's field is empty); an empty candidate language never
    matches a non-empty, non-wildcard model language; and the candidate is
    supported iff some declared locale matches it. *)
Theorem IsLocaleSupportedByModel_spec (self : ActionsSuggestions) (locale : Locale)
    (Hvalid : IsValid locale = true) (Hknown : IsUnknown locale = false)
    (Hdeclared : Forall (fun ml => IsValid ml = true) (locales_ self)) :
  (forall ml, In ml (locales_ self) ->
     (locale_components_match ml locale = true <->
      (Language ml = "" \/ Language ml = "*" \/ Language ml = Language locale) /\
      (Script ml = "" \/ Script ml = "*" \/ Script ml = Script locale \/ Script locale = "") /\
      (Region ml = "" \/ Region ml = "*" \/ Region ml = Region locale \/ Region locale = ""))) /\
  (forall ml, Language locale = "" -> Language ml <> "" -> Language ml <> "*" ->
     locale_components_match ml locale = false) /\
  (IsLocaleSupportedByModel self locale = true <->
   exists ml, In ml (locales_ self) /\ locale_components_match ml locale = true).
Proof.
  split; [|split].
  - intros ml _. apply locale_components_match_iff.
  - intros ml Hl Hne Hstar.
    destruct (locale_components_match ml locale) eqn:M; [|reflexivity].
    apply locale_components_match_iff in M as [[H|[H|H]] _]; unfold kAnyMatch in *; congruence.
  - unfold IsLocaleSupportedByModel. rewrite Hvalid, Hknown. simpl.
    rewrite model_locales_loop_iff. split.
    + intros (ml & Hin & _ & Hm). eauto.
    + intros (ml & Hin & Hm). exists ml. repeat split; auto.
      rewrite Forall_forall in Hdeclared. auto.
Qed.

Lemma IsLocaleSupportedByModel_spec_witness :
  IsValid loc_en_US = true /\ IsUnknown loc_en_US = false /\
  Forall (fun ml => IsValid ml = true) (locales_ (ex_self (-1) None)) /\
  IsLocaleSupportedByModel (ex_self (-1) None) loc_en_US = true.
Proof.
  assert (Hv : IsValid loc_en_US = true) by reflexivity.
  assert (Hu : IsUnknown loc_en_US = false) by reflexivity.
  assert (Hd : Forall (fun ml => IsValid ml = true) (locales_ (ex_self (-1) None)))
    by (repeat constructor).
  split; [exact Hv|]. split; [exact Hu|]. split; [exact Hd|].
  destruct (IsLocaleSupportedByModel_spec (ex_self (-1) None) loc_en_US Hv Hu Hd)
    as (_ & _ & Hiff).
  apply Hiff. exists loc_en. split; [left; reflexivity | reflexivity].
Defined.

(** C9 (counterexample): replacing the candidate's language with ["*"]
    turns a matching pair into a non-matching one. *)
Lemma locale_relaxation_candidate_wildcard_narrows :
  locale_components_match loc_en loc_en = true /\
  locale_components_match loc_en (with_language loc_en "*") = false.
Proof. split; reflexivity. Qed.

(** C9 (amended): a matching pair of a model-declared locale [ml] and a
    candidate [l] still matches after replacing any of [ml]'s language,
    script or region with ["*"] or the empty string, or after replacing
    [l]'s script or region with the empty string. *)
Theorem locale_relaxation_monotone (ml l : Locale)
    (Hmatch : locale_components_match ml l = true) :
  (forall s, s = "" \/ s = "*" ->
     locale_components_match (with_language ml s) l = true /\
     locale_components_match (with_script ml s) l = true /\
     locale_components_match (with_region ml s) l = true) /\
  locale_components_match ml (with_script l "") = true /\
  locale_components_match ml (with_region l "") = true.
Proof.
  apply locale_components_match_iff in Hmatch as (HL & HS & HR).
  split; [intros s Hs; repeat split|split];
    apply locale_components_match_iff; unfold kAnyMatch in *; simpl; tauto.
Qed.

Lemma locale_relaxation_monotone_witness :
  locale_components_match loc_en loc_en_US = true /\
  locale_components_match (with_region loc_en "*") loc_en_US = true.
Proof.
  assert (H : locale_components_match loc_en loc_en_US = true) by reflexivity.
  split; [exact H|].
  destruct (locale_relaxation_monotone loc_en loc_en_US H) as (Hm & _).
  apply (Hm "*"). right; reflexivity.
Defined.

End LocaleProps.

Module TrieProps.

Import Trie Examples.

(** C7 (failing input): in the two-node trie [ex_trie 3], the walk over
    "a" moves to node 1 and then to position [1 xor 3 = 2], equal to the
    node-array length; the call does not fail but returns [true] with no
    match, while a position beyond the bounds ([1 xor 7 = 6]) fails. *)
Theorem GatherPrefixMatches_position_at_bound_accepted :
  nodes_length_ (ex_trie 3) = 2%N /\
  N.lxor (N.lxor (offset (ex_trie 3) 0) 97) 3 = 2%N /\
  GatherPrefixMatches (ex_trie 3) [97%N] = Gathered true [] /\
  GatherPrefixMatches (ex_trie 7) [97%N] = Gathered false [].
Proof. repeat split; reflexivity. Qed.

End TrieProps.

(* ------------------------------------------------------------------ *)
(** ** Reflective records *)

Module ReflectionProps.

Import Reflection.

Lemma well_typed_eq (t : Object) (fs : list (Field * Variant))
    (cs : list (Z * ReflectiveFlatbuffer)) :
  well_typed (mkRF t fs cs) =
  forallb (fun fv => IsMatchingType (fst fv) (snd fv)) fs &&
  forallb (fun p => well_typed (snd p)) cs.
Proof.
  simpl. f_equal.
  induction cs as [|[o c] cs IH]; simpl; [reflexivity|].
  rewrite IH. reflexivity.
Qed.

Lemma Field_eqb_true (a b : Field) : Field_eqb a b = true <-> a = b.
Proof.
  unfold Field_eqb. destruct (Field_eq_dec a b); split; congruence.
Qed.

Lemma map_assign_typed (f : Field) (v : Variant) (m : list (Field * Variant)) :
  IsMatchingType f v = true ->
  forallb (fun fv => IsMatchingType (fst fv) (snd fv)) m = true ->
  forallb (fun fv => IsMatchingType (fst fv) (snd fv)) (map_assign f v m) = true.
Proof.
  intros Hv Hm. unfold map_assign.
  destruct (existsb _ m).
  - rewrite forallb_forall in *. intros p Hp.
    apply in_map_iff in Hp as (q & <- & Hq).
    destruct (Field_eqb (fst q) f); simpl; auto.
  - rewrite forallb_app, Hm. simpl. rewrite Hv. reflexivity.
Qed.

Lemma find_app' {A} (p : A -> bool) (l1 l2 : list A) :
  find p (l1 ++ l2) = match find p l1 with Some x => Some x | None => find p l2 end.
Proof.
  induction l1 as [|x l1 IH]; simpl; [reflexivity|].
  destruct (p x); [reflexivity|exact IH].
Qed.

Lemma find_assigned_other (f g : Field) (v : Variant) (m : list (Field * Variant)) :
  g <> f ->
  find (fun p => Field_eqb (fst p) g)
    (map (fun p => if Field_eqb (fst p) f then (f, v) else p) m) =
  find (fun p => Field_eqb (fst p) g) m.
Proof.
  intros Hgf. induction m as [|[f' v'] m IH]; simpl; [reflexivity|].
  unfold Field_eqb in *.
  destruct (Field_eq_dec f' f) as [->|Hne]; simpl.
  - destruct (Field_eq_dec f g); [congruence|]. exact IH.
  - destruct (Field_eq_dec f' g); [reflexivity|]. exact IH.
Qed.

Lemma find_assigned_same (f : Field) (v : Variant) (m : list (Field * Variant)) :
  existsb (fun p => Field_eqb (fst p) f) m = true ->
  option_map snd (find (fun p => Field_eqb (fst p) f)
    (map (fun p => if Field_eqb (fst p) f then (f, v) else p) m)) = Some v.
Proof.
  induction m as [|[f' v'] m IH]; simpl; [discriminate|].
  unfold Field_eqb in *.
  destruct (Field_eq_dec f' f) as [->|Hne]; simpl.
  - destruct (Field_eq_dec f f); [reflexivity|congruence].
  - destruct (Field_eq_dec f' f); [congruence|]. exact IH.
Qed.

Lemma lookup_field_map_assign (f g : Field) (v : Variant) (m : list (Field * Variant)) :
  lookup_field g (map_assign f v m) =
  if Field_eqb g f then Some v else lookup_field g m.
Proof.
  unfold lookup_field, map_assign.
  destruct (Field_eqb g f) eqn:Egf.
  - apply Field_eqb_true in Egf as ->.
    destruct (existsb (fun p => Field_eqb (fst p) f) m) eqn:E.
    + apply find_assigned_same. exact E.
    + rewrite find_app'.
      destruct (find (fun p => Field_eqb (fst p) f) m) eqn:F.
      * apply find_some in F as (Hin & Hp).
        assert (existsb (fun p => Field_eqb (fst p) f) m = true)
          by (apply existsb_exists; eauto). congruence.
      * simpl. unfold Field_eqb. destruct (Field_eq_dec f f); [reflexivity|congruence].
  - assert (Hgf : g <> f) by (intro; subst; unfold Field_eqb in Egf;
                              destruct (Field_eq_dec f f); congruence).
    destruct (existsb _ m).
    + rewrite find_assigned_other by exact Hgf. reflexivity.
    + rewrite find_app'.
      destruct (find (fun p => Field_eqb (fst p) g) m); [reflexivity|].
      simpl. unfold Field_eqb. destruct (Field_eq_dec f g); [congruence|reflexivity].
Qed.

Lemma SetField_well_typed (r : ReflectiveFlatbuffer) (f : Field) (v : Variant) :
  well_typed r = true -> well_typed (snd (SetField r f v)) = true.
Proof.
  destruct r as [t fs cs]. unfold SetField. simpl type_. simpl fields_. simpl children_.
  destruct (IsMatchingType f v) eqn:Hv; simpl negb; cbv iota; [|auto].
  simpl snd. rewrite !well_typed_eq. rewrite !andb_true_iff. intros [Hf Hc].
  split; [apply map_assign_typed|]; assumption.
Qed.

Lemma assign_child_typed (off : Z) (c : ReflectiveFlatbuffer) (cs : list (Z * ReflectiveFlatbuffer)) :
  well_typed c = true ->
  forallb (fun p => well_typed (snd p)) cs = true ->
  forallb (fun p => well_typed (snd p)) (assign_child off c cs) = true.
Proof.
  intros Hc Hcs. unfold assign_child.
  destruct (existsb _ cs).
  - rewrite forallb_forall in *. intros p Hp.
    apply in_map_iff in Hp as (q & <- & Hq).
    destruct (Z.eqb (fst q) off); simpl; auto.
  - rewrite forallb_app, Hcs. simpl. rewrite Hc. reflexivity.
Qed.

Lemma lookup_child_typed (off : Z) (cs : list (Z * ReflectiveFlatbuffer)) (c : ReflectiveFlatbuffer) :
  forallb (fun p => well_typed (snd p)) cs = true ->
  lookup_child off cs = Some c -> well_typed c = true.
Proof.
  unfold lookup_child. intros Hcs Hl.
  destruct (find _ cs) as [[o c']|] eqn:F; simpl in Hl; [|discriminate].
  injection Hl as <-. apply find_some in F as (Hin & _).
  rewrite forallb_forall in Hcs. apply (Hcs _ Hin).
Qed.

Lemma MergeFrom_well_typed (r : ReflectiveFlatbuffer) (tbl : FbTable) :
  well_typed r = true -> well_typed (snd (MergeFrom r tbl)) = true.
Proof.
  unfold MergeFrom. simpl snd.
  remember (object_fields (type_ r)) as fields eqn:Hf. clear Hf.
  revert r. induction fields as [|f fields IH]; intros r0 H; simpl; [exact H|].
  apply IH.
  destruct (find _ tbl) as [[o slot]|]; [|exact H].
  destruct (read_slot _ _); [|exact H].
  apply SetField_well_typed. exact H.
Qed.

Lemma WithMutable_well_typed (schema_ : Schema) (r : ReflectiveFlatbuffer) (name' : string)
    (g : ReflectiveFlatbuffer -> bool * ReflectiveFlatbuffer) :
  (forall c, well_typed c = true -> well_typed (snd (g c)) = true) ->
  well_typed r = true -> well_typed (snd (WithMutable schema_ r name' g)) = true.
Proof.
  intros Hg H. unfold WithMutable.
  destruct (GetFieldOrNull r name') as [field|]; [|exact H].
  destruct (base_type field); try exact H.
  destruct r as [t fs cs]. cbn [type_ fields_ children_] in *.
  rewrite well_typed_eq in H. apply andb_true_iff in H as [Hf Hc].
  set (child := match lookup_child (field_offset field) cs with
                | Some c => c
                | None => EmptyFlatbuffer (nth (type_index field) (objects schema_) (mkObject "" []))
                end).
  assert (Hchild : well_typed child = true).
  { unfold child. destruct (lookup_child (field_offset field) cs) eqn:L; [|reflexivity].
    eapply lookup_child_typed; eauto. }
  specialize (Hg child Hchild).
  destruct (g child) as [ok child'] eqn:E. cbn [snd] in *.
  rewrite well_typed_eq. apply andb_true_iff. split; [exact Hf|].
  apply assign_child_typed; assumption.
Qed.

Lemma apply_op_well_typed (schema_ : Schema) (op : RFOp) :
  forall r, well_typed r = true -> well_typed (snd (apply_op schema_ op r)) = true.
Proof.
  induction op as [name v|f v|tbl|name|name op IH]; intros r H; simpl.
  - unfold Set_. destruct (GetFieldOrNull r name); [|exact H].
    apply SetField_well_typed. exact H.
  - apply SetField_well_typed. exact H.
  - apply MergeFrom_well_typed. exact H.
  - apply WithMutable_well_typed; [|exact H]. intros c Hc. exact Hc.
  - apply WithMutable_well_typed; [exact IH|exact H].
Qed.

(** C8: [Set] checks the value's runtime type against the declared type
    of the field and, on a mismatch (or an unknown field name), returns
    [false] with the record unchanged; on a match it returns [true] and
    stores exactly the value, overwriting any earlier value of that field
    and leaving the other fields alone; and every operation on a record
    (both forms of [Set], [Mutable], and [MergeFromSerializedFlatbuffer],
    also inside nested records) keeps every stored value of the declared
    type of its field. *)
Theorem reflective_record_typing :
  (forall r f v, IsMatchingType f v = false -> SetField r f v = (false, r)) /\
  (forall r name v,
     (GetFieldOrNull r name = None \/
      exists f, GetFieldOrNull r name = Some f /\ IsMatchingType f v = false) ->
     Set_ r name v = (false, r)) /\
  (forall r f v, IsMatchingType f v = true ->
     fst (SetField r f v) = true /\
     lookup_field f (fields_ (snd (SetField r f v))) = Some v /\
     (forall g, g <> f -> lookup_field g (fields_ (snd (SetField r f v))) = lookup_field g (fields_ r)) /\
     children_ (snd (SetField r f v)) = children_ r) /\
  (forall schema_ op r, well_typed r = true -> well_typed (snd (apply_op schema_ op r)) = true).
Proof.
  split; [|split; [|split]].
  - intros r f v H. unfold SetField. rewrite H. reflexivity.
  - intros r name v [H|(f & H & Hm)]; unfold Set_; rewrite H; [reflexivity|].
    unfold SetField. rewrite Hm. reflexivity.
  - intros r f v H. unfold SetField. rewrite H. simpl.
    split; [reflexivity|]. split; [|split; [|reflexivity]].
    + rewrite lookup_field_map_assign. unfold Field_eqb.
      destruct (Field_eq_dec f f); congruence.
    + intros g Hg. rewrite lookup_field_map_assign. unfold Field_eqb.
      destruct (Field_eq_dec g f); congruence.
  - exact apply_op_well_typed.
Qed.

End ReflectionProps.

(* ------------------------------------------------------------------ *)
(** ** The gating pipeline *)

Module PipelineProps.

Import Actions Examples.

Lemma push_action_status (r : ActionsSuggestionsResponse) (a : ActionSuggestion) :
  response_status (push_action r a) = response_status r.
Proof. reflexivity. Qed.

Lemma fold_left_status {A} (f : ActionsSuggestionsResponse -> A -> ActionsSuggestionsResponse)
    (l : list A) (r : ActionsSuggestionsResponse) :
  (forall r x, response_status (f r x) = response_status r) ->
  response_status (fold_left f l r) = response_status r.
Proof.
  intros Hf. revert r. induction l as [|x l IH]; intros r; simpl; [reflexivity|].
  rewrite IH. apply Hf.
Qed.

Lemma CreateActionsFromAnnotation_status self i a r :
  response_status (CreateActionsFromAnnotation self i a r) = response_status r.
Proof.
  unfold CreateActionsFromAnnotation. apply fold_left_status.
  intros r' m. destruct (String.eqb _ _); [|reflexivity].
  destruct (Qltb _ _); reflexivity.
Qed.

Lemma SuggestActionsFromAnnotations_status self env conv r :
  response_status (SuggestActionsFromAnnotations self env conv r) = response_status r.
Proof.
  unfold SuggestActionsFromAnnotations.
  destruct (annotation_actions_spec (model_ self)) as [aspec|]; [|reflexivity].
  destruct (annotation_mapping aspec) as [[|m ms]|]; try reflexivity.
  destruct (deduplicate_annotations aspec); apply fold_left_status;
    intros; apply CreateActionsFromAnnotation_status.
Qed.

Lemma Gather_after_length_check self env conv options :
  conv <> [] -> 0 < num_messages_of self conv ->
  ((input_text_length_of conv (num_messages_of self conv)
      <? min_input_length (preconditions (model_ self))) ||
   ((0 <=? max_input_length (preconditions (model_ self))) &&
    (max_input_length (preconditions (model_ self))
       <? input_text_length_of conv (num_messages_of self conv)))) = false ->
  GatherActionsSuggestions self env conv options =
  GatherAfterLengthCheck self env conv options (num_messages_of self conv)
    (num_matching_locales_of self env conv (num_messages_of self conv))
    (SuggestActionsFromAnnotations self env conv default_response).
Proof.
  intros Hc Hn Hl. unfold GatherActionsSuggestions.
  destruct conv as [|m ms]; [congruence|].
  replace (num_messages_of self (m :: ms) <=? 0) with false by lia.
  rewrite Hl. reflexivity.
Qed.

Lemma Gather_length_stop self env conv options :
  conv <> [] -> 0 < num_messages_of self conv ->
  ((input_text_length_of conv (num_messages_of self conv)
      <? min_input_length (preconditions (model_ self))) ||
   ((0 <=? max_input_length (preconditions (model_ self))) &&
    (max_input_length (preconditions (model_ self))
       <? input_text_length_of conv (num_messages_of self conv)))) = true ->
  GatherActionsSuggestions self env conv options =
  (true, SuggestActionsFromAnnotations self env conv default_response).
Proof.
  intros Hc Hn Hl. unfold GatherActionsSuggestions.
  destruct conv as [|m ms]; [congruence|].
  replace (num_messages_of self (m :: ms) <=? 0) with false by lia.
  rewrite Hl. reflexivity.
Qed.

(** C3 (counterexample): with [max_input_length = 0] the one-message
    conversation "hi" (2 bytes, above [min_input_length = 0]) is stopped by
    the input length check, so the rule that matches "hi" never runs. *)
Lemma input_length_max_zero_stops :
  max_input_length (preconditions (model_ (ex_self 0 None))) = 0 /\
  min_input_length (preconditions (model_ (ex_self 0 None))) = 0 /\
  input_text_length_of ex_conversation (num_messages_of (ex_self 0 None) ex_conversation) = 2 /\
  GatherActionsSuggestions (ex_self 0 None) (ex_env finds_once) ex_conversation ex_options
    = (true, default_response) /\
  GatherAfterLengthCheck (ex_self 0 None) (ex_env finds_once) ex_conversation ex_options 1 0
    default_response = (true, set_actions default_response [ex_rule_action]).
Proof. repeat split; reflexivity. Qed.

(** C3 (amended): for a non-empty conversation with at least one selected
    message, the input length check stops the pipeline exactly when the
    byte length of the last [num_messages] messages is below
    [min_input_length], or [max_input_length] is non-negative and the
    length exceeds it; then gathering succeeds with the annotation-derived
    actions only and every suppression flag cleared; otherwise the
    pipeline goes on to the locale check. *)
Theorem input_length_gate (self : ActionsSuggestions) (env : Env) (conv : Conversation)
    (options : ActionSuggestionOptions)
    (Hconv : conv <> []) (Hnum : 0 < num_messages_of self conv) :
  let num_messages := num_messages_of self conv in
  let len := input_text_length_of conv num_messages in
  let pre := preconditions (model_ self) in
  let annotated := SuggestActionsFromAnnotations self env conv default_response in
  ((len < min_input_length pre \/ (0 <= max_input_length pre /\ max_input_length pre < len)) ->
     GatherActionsSuggestions self env conv options = (true, annotated) /\
     output_filtered_sensitivity annotated = false /\
     output_filtered_min_triggering_score annotated = false /\
     output_filtered_low_confidence annotated = false /\
     output_filtered_locale_mismatch annotated = false) /\
  (~ (len < min_input_length pre \/ (0 <= max_input_length pre /\ max_input_length pre < len)) ->
     GatherActionsSuggestions self env conv options =
     GatherAfterLengthCheck self env conv options num_messages
       (num_matching_locales_of self env conv num_messages) annotated).
Proof.
  intros num_messages len pre annotated. split.
  - intros Hout.
    pose proof (SuggestActionsFromAnnotations_status self env conv default_response) as Hs.
    unfold response_status in Hs. simpl in Hs. fold annotated in Hs.
    injection Hs as H1 H2 H3 H4 H5 H6.
    split; [|repeat split; assumption].
    apply Gather_length_stop; [assumption|assumption|].
    apply orb_true_iff. fold num_messages len pre.
    destruct Hout as [H|[H H']]; [left; lia|right; apply andb_true_iff; lia].
  - intros Hin. apply Gather_after_length_check; [assumption|assumption|].
    fold num_messages len pre.
    apply orb_false_iff. split.
    + apply Z.ltb_ge. lia.
    + apply andb_false_iff.
      destruct (Z.leb_spec 0 (max_input_length pre)); [right; apply Z.ltb_ge; lia|left; reflexivity].
Qed.

Lemma input_length_gate_witness :
  ex_conversation <> [] /\ 0 < num_messages_of (ex_self 0 None) ex_conversation /\
  GatherActionsSuggestions (ex_self 0 None) (ex_env finds_once) ex_conversation ex_options =
  (true, SuggestActionsFromAnnotations (ex_self 0 None) (ex_env finds_once) ex_conversation
           default_response).
Proof.
  assert (Hc : ex_conversation <> []) by discriminate.
  assert (Hn : 0 < num_messages_of (ex_self 0 None) ex_conversation) by (vm_compute; reflexivity).
  split; [exact Hc|]. split; [exact Hn|].
  destruct (input_length_gate (ex_self 0 None) (ex_env finds_once) ex_conversation ex_options Hc Hn)
    as [Hstop _].
  apply Hstop. right. vm_compute. split; [discriminate|reflexivity].
Defined.

(** C1 (counterexample): the matcher of the only rule finds a match and
    then reports an error status; the rule pass ignores the error and
    the final response keeps the action of the first match. *)
Lemma SuggestActions_matcher_error_keeps_actions :
  find_status (nth 1 finds_then_error (mkFind false kNoError [])) <> kNoError /\
  actions (SuggestActions (ex_self (-1) None) (ex_env finds_then_error) ex_conversation ex_options)
    = [ex_rule_action].
Proof. split; [vm_compute; discriminate | reflexivity]. Qed.

(** C1 (amended): when gathering fails (for instance when setting an
    entity field from a capturing group fails in the rule pass) or the
    ranker fails, [SuggestActions] returns no action; a matcher error
    status is not a failure: it ends the matches of that rule and the
    rule pass goes on. *)
Theorem SuggestActions_failure_clears (self : ActionsSuggestions) (env : Env)
    (conv : Conversation) (options : ActionSuggestionOptions) :
  (fst (GatherActionsSuggestions self env conv options) = false ->
     actions (SuggestActions self env conv options) = []) /\
  (fst (GatherActionsSuggestions self env conv options) = true ->
     fst (rank_actions env (snd (GatherActionsSuggestions self env conv options))) = false ->
     actions (SuggestActions self env conv options) = []) /\
  (forall rule' has_entity_data f rest r ra ras,
     find_found f = true -> find_status f = kNoError ->
     rule_actions rule' = ra :: ras ->
     rule_entity_data env has_entity_data ra (find_groups f) = None ->
     matches_loop env rule' has_entity_data (f :: rest) r = (false, r)) /\
  (forall rule' has_entity_data f rest r,
     find_status f <> kNoError ->
     matches_loop env rule' has_entity_data (f :: rest) r = (true, r)).
Proof.
  split; [|split; [|split]].
  - unfold SuggestActions. destruct (GatherActionsSuggestions self env conv options) as [[|] r];
      simpl; [discriminate|reflexivity].
  - unfold SuggestActions. destruct (GatherActionsSuggestions self env conv options) as [[|] r];
      simpl; [|discriminate].
    intros _. destruct (rank_actions env r) as [[|] r']; simpl; [discriminate|reflexivity].
  - intros rule' hed f rest r ra ras Hf Hs Ha He. simpl.
    rewrite Hf, Hs. simpl. rewrite Ha. simpl. rewrite He. reflexivity.
  - intros rule' hed f rest r Hs. simpl.
    apply Z.eqb_neq in Hs. rewrite Hs, andb_false_r. reflexivity.
Qed.

Lemma SuggestActions_failure_clears_witness :
  matches_loop (ex_env finds_once) ex_rule false [mkFind true 1 []] default_response
  = (true, default_response).
Proof.
  destruct (SuggestActions_failure_clears (ex_self (-1) None) (ex_env finds_once)
              ex_conversation ex_options) as (_ & _ & _ & H).
  apply H. vm_compute. discriminate.
Defined.

(** Reading a sensitivity score above the threshold sets the flag and
    adds no action. *)
Lemma ReadModelOutput_sensitive self interpreter options r v :
  let spec := tflite_model_spec (model_ self) in
  (output_triggering_score spec < 0 \/
   exists t, output_view interpreter (output_triggering_score spec) = Some t /\ tv_size t <> 0) ->
  0 <= output_sensitive_topic_score spec ->
  output_view interpreter (output_sensitive_topic_score spec) = Some v ->
  tv_dim0 v = 1 ->
  (max_sensitive_topic_score (preconditions (model_ self)) < tv_at v 0)%Q ->
  output_filtered_sensitivity (ReadModelOutput self interpreter options r) = true /\
  actions (ReadModelOutput self interpreter options r) = actions r.
Proof.
  intros spec Htrig Hs Hv Hd Hgt. unfold ReadModelOutput.
  assert (Ht : exists r1, read_triggering_score self interpreter options r = Some r1 /\
                          actions r1 = actions r).
  { unfold read_triggering_score. fold spec.
    destruct Htrig as [Hneg|(t & Ht & Hsz)].
    - replace (0 <=? output_triggering_score spec) with false by lia. eauto.
    - destruct (Z.leb_spec 0 (output_triggering_score spec)); [|eauto].
      rewrite Ht. replace (tv_size t =? 0) with false by lia. eauto. }
  destruct Ht as (r1 & Ht & Ha). rewrite Ht.
  unfold read_sensitivity_score. fold spec.
  replace (0 <=? output_sensitive_topic_score spec) with true by lia.
  rewrite Hv, Hd. simpl.
  apply Qltb_iff in Hgt. rewrite Hgt. simpl. split; [reflexivity|exact Ha].
Qed.

(** C2 (counterexample): the interpreter's sensitivity output is [0.9],
    above [max_sensitive_topic_score = 1/2], and suppression is on, but
    its triggering-score output is not a valid view: [ReadModelOutput]
    returns before reading the sensitivity score, the flag stays cleared
    and the rule pass adds its action to the final response. *)
Lemma sensitivity_not_read_after_triggering_failure :
  suppress_on_sensitive_topic (preconditions (model_ (ex_self (-1) (Some (ex_executor None))))) = true /\
  output_view (ex_interpreter None) 1 = Some (mkTensorView [1] [9 # 10]) /\
  (max_sensitive_topic_score (preconditions (model_ (ex_self (-1) (Some (ex_executor None))))) < 9 # 10)%Q /\
  output_filtered_sensitivity
    (SuggestActions (ex_self (-1) (Some (ex_executor None))) (ex_env finds_once) ex_conversation ex_options)
    = false /\
  actions (SuggestActions (ex_self (-1) (Some (ex_executor None))) (ex_env finds_once) ex_conversation ex_options)
    = [ex_rule_action].
Proof. repeat split; reflexivity. Qed.

(** C2 (amended): when the pipeline reaches the model (non-empty
    conversation, length, locale and low confidence checks passed), the
    model runs, its sensitivity score is read ([ReadModelOutput] reads it
    after a configured triggering score output that is valid and
    non-empty) and exceeds [max_sensitive_topic_score], and
    [suppress_on_sensitive_topic] is set, then gathering succeeds with
    exactly the annotation-derived actions (no model-derived and no
    rule-derived action) and [output_filtered_sensitivity] set; with a
    ranker that only filters and reorders, the final response keeps the
    flag and only annotation-derived actions. *)
Theorem sensitivity_suppression (self : ActionsSuggestions) (env : Env) (conv : Conversation)
    (options : ActionSuggestionOptions) (executor : TfLiteModelExecutor)
    (interpreter : Interpreter) (v : TensorView)
    (Hconv : conv <> [])
    (Hnum : 0 < num_messages_of self conv)
    (Hlen : ((input_text_length_of conv (num_messages_of self conv)
                <? min_input_length (preconditions (model_ self))) ||
             ((0 <=? max_input_length (preconditions (model_ self))) &&
              (max_input_length (preconditions (model_ self))
                 <? input_text_length_of conv (num_messages_of self conv)))) = false)
    (Hlocale : Qltb (inject_Z (num_matching_locales_of self env conv (num_messages_of self conv))
                     / inject_Z (num_messages_of self conv))
                 (min_locale_match_fraction (preconditions (model_ self))) = false)
    (Hlow : IsLowConfidenceInput self env conv (num_messages_of self conv) = false)
    (Hexec : model_executor_ self = Some executor)
    (Hrun : run_interpreter executor (model_input self conv (num_messages_of self conv))
            = Some interpreter)
    (Htrig : output_triggering_score (tflite_model_spec (model_ self)) < 0 \/
             exists t, output_view interpreter (output_triggering_score (tflite_model_spec (model_ self)))
                       = Some t /\ tv_size t <> 0)
    (Hsens : 0 <= output_sensitive_topic_score (tflite_model_spec (model_ self)))
    (Hview : output_view interpreter (output_sensitive_topic_score (tflite_model_spec (model_ self)))
             = Some v)
    (Hdim : tv_dim0 v = 1)
    (Hgt : (max_sensitive_topic_score (preconditions (model_ self)) < tv_at v 0)%Q)
    (Hsuppress : suppress_on_sensitive_topic (preconditions (model_ self)) = true) :
  let annotated := SuggestActionsFromAnnotations self env conv default_response in
  fst (GatherActionsSuggestions self env conv options) = true /\
  actions (snd (GatherActionsSuggestions self env conv options)) = actions annotated /\
  output_filtered_sensitivity (snd (GatherActionsSuggestions self env conv options)) = true /\
  (ranker_filters env ->
   output_filtered_sensitivity (SuggestActions self env conv options) = true /\
   incl (actions (SuggestActions self env conv options)) (actions annotated)).
Proof.
  intros annotated.
  assert (HG : exists r, GatherActionsSuggestions self env conv options = (true, r) /\
                         actions r = actions annotated /\ output_filtered_sensitivity r = true).
  { rewrite Gather_after_length_check by assumption.
    unfold GatherAfterLengthCheck. rewrite Hlocale, Hlow.
    unfold SuggestActionsFromModel. rewrite Hexec, Hrun.
    destruct (ReadModelOutput_sensitive self interpreter options annotated v Htrig Hsens Hview Hdim Hgt)
      as [Hf Ha].
    fold annotated. rewrite Hsuppress, Hf. simpl. eauto. }
  destruct HG as (r & HG & Ha & Hf). rewrite HG. simpl.
  split; [reflexivity|]. split; [exact Ha|]. split; [exact Hf|].
  intros Hrank. unfold SuggestActions. rewrite HG.
  destruct (Hrank r) as [Hst Hincl].
  destruct (rank_actions env r) as [ok r'] eqn:E. simpl in Hst, Hincl.
  unfold response_status in Hst. injection Hst as _ _ Hs _ _ _.
  destruct ok; simpl.
  - split; [congruence|]. rewrite <- Ha. exact Hincl.
  - split; [congruence|]. intros x [].
Qed.

Lemma sensitivity_suppression_witness :
  output_filtered_sensitivity
    (snd (GatherActionsSuggestions (ex_self (-1) (Some (ex_executor (Some (mkTensorView [1] [1%Q])))))
            (ex_env finds_once) ex_conversation ex_options)) = true.
Proof.
  destruct (sensitivity_suppression (ex_self (-1) (Some (ex_executor (Some (mkTensorView [1] [1%Q])))))
              (ex_env finds_once) ex_conversation ex_options
              (ex_executor (Some (mkTensorView [1] [1%Q])))
              (ex_interpreter (Some (mkTensorView [1] [1%Q])))
              (mkTensorView [1] [9 # 10])
              ltac:(discriminate) ltac:(vm_compute; reflexivity) ltac:(vm_compute; reflexivity)
              ltac:(vm_compute; reflexivity) ltac:(vm_compute; reflexivity) ltac:(reflexivity)
              ltac:(reflexivity)
              ltac:(right; exists (mkTensorView [1] [1%Q]); split; [reflexivity|discriminate])
              ltac:(vm_compute; discriminate) ltac:(reflexivity) ltac:(reflexivity)
              ltac:(vm_compute; reflexivity) ltac:(reflexivity))
    as (_ & _ & Hf & _).
  exact Hf.
Defined.

(** C10 (counterexample): the sensitivity output is [0.9], above the
    threshold [1/2], but the triggering-score output is not a valid view:
    [ReadModelOutput] returns before reading the sensitivity score and
    [output_filtered_sensitivity] stays cleared. *)
Lemma sensitivity_flag_unset_after_triggering_failure :
  output_view (ex_interpreter None) 1 = Some (mkTensorView [1] [9 # 10]) /\
  (max_sensitive_topic_score (preconditions (model_ (ex_self (-1) None))) < 9 # 10)%Q /\
  output_filtered_sensitivity
    (ReadModelOutput (ex_self (-1) None) (ex_interpreter None) ex_options default_response) = false.
Proof. repeat split; reflexivity. Qed.

(** C10 (amended): whenever [ReadModelOutput] reads a sensitivity score
    above [max_sensitive_topic_score] (which needs a configured
    triggering-score output to be valid and non-empty), it sets
    [output_filtered_sensitivity] and adds no model-derived reply or
    action; this does not depend on [suppress_on_sensitive_topic], and
    when that is not set the pipeline goes on from the model to the rule
    pass. *)
Theorem ReadModelOutput_sensitivity_suppresses (self : ActionsSuggestions)
    (interpreter : Interpreter) (options : ActionSuggestionOptions)
    (r : ActionsSuggestionsResponse) (v : TensorView)
    (Htrig : output_triggering_score (tflite_model_spec (model_ self)) < 0 \/
             exists t, output_view interpreter (output_triggering_score (tflite_model_spec (model_ self)))
                       = Some t /\ tv_size t <> 0)
    (Hsens : 0 <= output_sensitive_topic_score (tflite_model_spec (model_ self)))
    (Hview : output_view interpreter (output_sensitive_topic_score (tflite_model_spec (model_ self)))
             = Some v)
    (Hdim : tv_dim0 v = 1)
    (Hgt : (max_sensitive_topic_score (preconditions (model_ self)) < tv_at v 0)%Q) :
  output_filtered_sensitivity (ReadModelOutput self interpreter options r) = true /\
  actions (ReadModelOutput self interpreter options r) = actions r /\
  (forall env conv num_messages num_matching_locales r',
     suppress_on_sensitive_topic (preconditions (model_ self)) = false ->
     Qltb (inject_Z num_matching_locales / inject_Z num_messages)
       (min_locale_match_fraction (preconditions (model_ self))) = false ->
     IsLowConfidenceInput self env conv num_messages = false ->
     GatherAfterLengthCheck self env conv options num_messages num_matching_locales r' =
     SuggestActionsFromRules self env conv (SuggestActionsFromModel self conv num_messages options r')).
Proof.
  destruct (ReadModelOutput_sensitive self interpreter options r v Htrig Hsens Hview Hdim Hgt)
    as [Hf Ha].
  split; [exact Hf|]. split; [exact Ha|].
  intros env conv nm nml r' Hsup Hloc Hlow.
  unfold GatherAfterLengthCheck. rewrite Hloc, Hlow, Hsup. simpl.
  destruct (SuggestActionsFromRules self env conv _) as [[|] r'']; reflexivity.
Qed.

Lemma ReadModelOutput_sensitivity_suppresses_witness :
  output_filtered_sensitivity
    (ReadModelOutput (ex_self (-1) None) (ex_interpreter (Some (mkTensorView [1] [1%Q]))) ex_options
       default_response) = true.
Proof.
  destruct (ReadModelOutput_sensitivity_suppresses (ex_self (-1) None)
              (ex_interpreter (Some (mkTensorView [1] [1%Q]))) ex_options default_response
              (mkTensorView [1] [9 # 10])
              ltac:(right; exists (mkTensorView [1] [1%Q]); split; [reflexivity|discriminate])
              ltac:(vm_compute; discriminate) ltac:(reflexivity) ltac:(reflexivity)
              ltac:(vm_compute; reflexivity))
    as (Hf & _).
  exact Hf.
Defined.

(** ** Deduplication of annotations *)

Lemma key_eqb_iff (a b : DedupKey) : key_eqb a b = true <-> a = b.
Proof.
  destruct a as [a1 a2], b as [b1 b2]. unfold key_eqb. simpl.
  rewrite andb_true_iff, !String.eqb_eq.
  split; [intros [-> ->]; reflexivity | intros H; inversion H; auto].
Qed.

Lemma key_eq_dec (a b : DedupKey) : {a = b} + {a <> b}.
Proof. decide equality; apply string_dec. Qed.

Lemma map_find_some (k : DedupKey) (j : nat) (m : list (DedupKey * nat)) :
  map_find k m = Some j -> In (k, j) m.
Proof.
  unfold map_find. destruct (find _ m) as [[k' j']|] eqn:Hf; simpl; [|discriminate].
  intros H. inversion H; subst.
  apply find_some in Hf. destruct Hf as [Hin Hk]. simpl in Hk.
  apply key_eqb_iff in Hk. subst. exact Hin.
Qed.

Lemma map_find_none (k : DedupKey) (m : list (DedupKey * nat)) :
  map_find k m = None -> forall i, ~ In (k, i) m.
Proof.
  unfold map_find. destruct (find _ m) eqn:Hf; simpl; [discriminate|].
  intros _ i Hin. pose proof (find_none _ _ Hf _ Hin) as H. simpl in H.
  rewrite (proj2 (key_eqb_iff k k) eq_refl) in H. discriminate.
Qed.

Lemma map_insert_perm (k : DedupKey) (v : nat) (m : list (DedupKey * nat)) :
  Permutation (map_insert k v m) ((k, v) :: m).
Proof.
  induction m as [|[k' v'] rest IH]; simpl; [reflexivity|].
  destruct (key_compare k k'); try reflexivity;
    (eapply perm_trans; [apply perm_skip, IH | apply perm_swap]).
Qed.

Lemma map_update_fst (k : DedupKey) (v : nat) (m : list (DedupKey * nat)) :
  map fst (map_update k v m) = map fst m.
Proof.
  unfold map_update. rewrite map_map. apply map_ext.
  intros [k' v']. simpl. destruct (key_eqb k' k); reflexivity.
Qed.

Lemma In_map_update (k k' : DedupKey) (v i : nat) (m : list (DedupKey * nat)) :
  In (k', i) (map_update k v m) -> (k' = k /\ i = v) \/ (k' <> k /\ In (k', i) m).
Proof.
  unfold map_update. intros H. apply in_map_iff in H.
  destruct H as [[k0 v0] [Heq Hin]]. simpl in Heq.
  destruct (key_eqb k0 k) eqn:E.
  - apply key_eqb_iff in E. inversion Heq; subst. left; auto.
  - inversion Heq; subst. right. split; [|exact Hin].
    intros ->. rewrite (proj2 (key_eqb_iff k k) eq_refl) in E. discriminate.
Qed.

Lemma In_map_update_same (k : DedupKey) (v i : nat) (m : list (DedupKey * nat)) :
  In (k, i) m -> In (k, v) (map_update k v m).
Proof.
  unfold map_update. intros H. apply in_map_iff. exists (k, i). split; [|exact H].
  simpl. rewrite (proj2 (key_eqb_iff k k) eq_refl). reflexivity.
Qed.

Lemma In_map_update_other (k k' : DedupKey) (v i : nat) (m : list (DedupKey * nat)) :
  k' <> k -> In (k', i) m -> In (k', i) (map_update k v m).
Proof.
  unfold map_update. intros Hne H. apply in_map_iff. exists (k', i). split; [|exact H].
  simpl. destruct (key_eqb k' k) eqn:E; [|reflexivity].
  apply key_eqb_iff in E. contradiction.
Qed.

Lemma NoDup_fst_unique (m : list (DedupKey * nat)) (k : DedupKey) (i j : nat) :
  NoDup (map fst m) -> In (k, i) m -> In (k, j) m -> i = j.
Proof.
  induction m as [|[k0 v0] rest IH]; simpl; [intros _ []|].
  intros Hnd Hi Hj. inversion Hnd as [|? ? Hnot Hnd']; subst.
  destruct Hi as [Hi|Hi], Hj as [Hj|Hj].
  - inversion Hi; inversion Hj; subst; reflexivity.
  - inversion Hi; subst. exfalso. apply Hnot. apply in_map_iff. exists (k, j); auto.
  - inversion Hj; subst. exfalso. apply Hnot. apply in_map_iff. exists (k, i); auto.
  - apply IH; assumption.
Qed.

Lemma dedup_step_inv (anns : list ActionSuggestionAnnotation) (n : nat)
    (m : list (DedupKey * nat)) :
  (n < length anns)%nat -> dedup_inv anns n m -> dedup_inv anns (S n) (dedup_step anns m n).
Proof.
  intros Hn (Hnd & Hin & Hcov).
  unfold dedup_step. rewrite (nth_error_nth' anns empty_action_annotation Hn).
  change (dedup_key (nth n anns empty_action_annotation)) with (ann_key anns n).
  destruct (map_find (ann_key anns n) m) as [j|] eqn:Hf.
  - apply map_find_some in Hf.
    destruct (Hin _ _ Hf) as (Hkj & Hjn & Hle & Hlt).
    rewrite (nth_indep anns (nth n anns empty_action_annotation) empty_action_annotation)
      by lia.
    change (score (entity (nth j anns empty_action_annotation))) with (ann_score anns j).
    change (score (entity (nth n anns empty_action_annotation))) with (ann_score anns n).
    destruct (Qltb (ann_score anns j) (ann_score anns n)) eqn:Hq.
    + apply Qltb_iff in Hq. split; [|split].
      * rewrite map_update_fst. exact Hnd.
      * intros k i Hki. apply In_map_update in Hki.
        destruct Hki as [[-> ->] | [Hne Hki]].
        -- split; [reflexivity|]. split; [lia|]. split.
           ++ intros j' Hj' Hk'. destruct (Nat.eq_dec j' n) as [->|Hne]; [apply Qle_refl|].
              apply Qle_trans with (ann_score anns j);
                [apply Hle; [lia | exact Hk'] | apply Qlt_le_weak; exact Hq].
           ++ intros j' Hj' Hk'. apply Qle_lt_trans with (ann_score anns j);
                [apply Hle; [lia | exact Hk'] | exact Hq].
        -- destruct (Hin _ _ Hki) as (Hk & Hi & Hle' & Hlt').
           split; [exact Hk|]. split; [lia|]. split; [|exact Hlt'].
           intros j' Hj' Hk'. destruct (Nat.eq_dec j' n) as [->|Hne'].
           ++ exfalso. apply Hne. symmetry. exact Hk'.
           ++ apply Hle'; [lia | exact Hk'].
      * intros j' Hj'. destruct (Nat.eq_dec j' n) as [->|Hne].
        -- exists n. apply In_map_update_same with j. exact Hf.
        -- destruct (Hcov j' ltac:(lia)) as [i Hi].
           destruct (key_eq_dec (ann_key anns j') (ann_key anns n)) as [He|Hne'].
           ++ exists n. rewrite He in *. apply In_map_update_same with i. exact Hi.
           ++ exists i. apply In_map_update_other; assumption.
    + assert (Hge : (ann_score anns n <= ann_score anns j)%Q).
      { apply Qnot_lt_le. intros H. apply Qltb_iff in H. congruence. }
      split; [exact Hnd|]. split.
      * intros k i Hki. destruct (Hin _ _ Hki) as (Hk & Hi & Hle' & Hlt').
        split; [exact Hk|]. split; [lia|]. split; [|exact Hlt'].
        intros j' Hj' Hk'. destruct (Nat.eq_dec j' n) as [->|Hne].
        -- assert (i = j) as ->.
           { apply (NoDup_fst_unique m k); [exact Hnd | exact Hki | rewrite <- Hk'; exact Hf]. }
           exact Hge.
        -- apply Hle'; [lia | exact Hk'].
      * intros j' Hj'. destruct (Nat.eq_dec j' n) as [->|Hne].
        -- exists j. exact Hf.
        -- apply Hcov. lia.
  - pose proof (map_find_none _ _ Hf) as Hnone.
    split; [|split].
    + apply Permutation_NoDup with (map fst ((ann_key anns n, n) :: m)).
      * apply Permutation_map. symmetry. apply map_insert_perm.
      * simpl. constructor; [|exact Hnd].
        intros Hin'. apply in_map_iff in Hin'. destruct Hin' as [[k i] [Hk Hki]].
        simpl in Hk. subst. exact (Hnone i Hki).
    + intros k i Hki. eapply Permutation_in in Hki; [|apply map_insert_perm].
      destruct Hki as [Heq | Hki].
      * injection Heq as Hk Hi. subst k i. split; [reflexivity|]. split; [lia|]. split.
        -- intros j' Hj' Hk'. destruct (Nat.eq_dec j' n) as [->|Hne]; [apply Qle_refl|].
           destruct (Hcov j' ltac:(lia)) as [i Hi]. rewrite Hk' in Hi.
           destruct (Hnone _ Hi).
        -- intros j' Hj' Hk'. destruct (Hcov j' ltac:(lia)) as [i Hi]. rewrite Hk' in Hi.
           destruct (Hnone _ Hi).
      * destruct (Hin _ _ Hki) as (Hk & Hi & Hle' & Hlt').
        split; [exact Hk|]. split; [lia|]. split; [|exact Hlt'].
        intros j' Hj' Hk'. destruct (Nat.eq_dec j' n) as [->|Hne].
        -- rewrite <- Hk' in Hki. destruct (Hnone _ Hki).
        -- apply Hle'; [lia | exact Hk'].
    + intros j' Hj'. destruct (Nat.eq_dec j' n) as [->|Hne].
      * exists n. eapply Permutation_in; [symmetry; apply map_insert_perm | left; reflexivity].
      * destruct (Hcov j' ltac:(lia)) as [i Hi]. exists i.
        eapply Permutation_in; [symmetry; apply map_insert_perm | right; exact Hi].
Qed.

Lemma dedup_fold_inv (anns : list ActionSuggestionAnnotation) (a b : nat)
    (m : list (DedupKey * nat)) :
  dedup_inv anns a m -> (a + b <= length anns)%nat ->
  dedup_inv anns (a + b) (fold_left (dedup_step anns) (seq a b) m).
Proof.
  revert a m. induction b as [|b IH]; intros a m H Hle; simpl.
  - rewrite Nat.add_0_r. exact H.
  - replace (a + S b)%nat with (S a + b)%nat by lia.
    apply IH; [apply dedup_step_inv; [lia | exact H] | lia].
Qed.

Lemma filter_all_false {A : Type} (g : A -> bool) (l : list A) :
  (forall x, In x l -> g x = false) -> filter g l = [].
Proof.
  induction l as [|x l IH]; simpl; intros H; [reflexivity|].
  rewrite (H x (or_introl eq_refl)). apply IH. intros y Hy. apply H. right. exact Hy.
Qed.

Lemma filter_unique_key (f : nat -> DedupKey) (m : list (DedupKey * nat)) (k : DedupKey) (i : nat) :
  NoDup (map fst m) -> In (k, i) m -> (forall k' i', In (k', i') m -> k' = f i') ->
  filter (fun i' => key_eqb (f i') k) (map snd m) = [i].
Proof.
  induction m as [|[k0 i0] rest IH]; simpl; [intros _ []|].
  intros Hnd Hki Hkey. inversion Hnd as [|? ? Hnot Hnd']; subst.
  assert (Hk0 : k0 = f i0) by (apply Hkey; left; reflexivity).
  destruct (key_eqb (f i0) k) eqn:E.
  - apply key_eqb_iff in E. destruct Hki as [Heq | Hki].
    + inversion Heq; subst. f_equal. apply filter_all_false.
      intros x Hx. apply in_map_iff in Hx. destruct Hx as [[k' x'] [Hx' Hx]]. simpl in Hx'. subst x'.
      destruct (key_eqb (f x) (f i)) eqn:E'; [|reflexivity].
      apply key_eqb_iff in E'. exfalso. apply Hnot. apply in_map_iff. exists (k', x).
      split; [|exact Hx]. simpl. rewrite (Hkey k' x (or_intror Hx)). exact E'.
    + exfalso. apply Hnot. apply in_map_iff. exists (k, i). split; [simpl; congruence | exact Hki].
  - destruct Hki as [Heq | Hki].
    + inversion Heq; subst. rewrite (proj2 (key_eqb_iff (f i) (f i)) eq_refl) in E. discriminate.
    + apply IH; [exact Hnd' | exact Hki | intros k' i' H; apply Hkey; right; exact H].
Qed.

(** C5: deduplication keys each annotation by its name (the collection of
    its top classification) and its text.  Every index returned is an index
    of the input; for every key that occurs, exactly one index with that key
    is returned, and its score is maximal within the key group and strictly
    above the score of every earlier annotation of the group (so on equal
    scores the first one is kept). *)
Theorem DeduplicateAnnotations_spec (anns : list ActionSuggestionAnnotation) (j0 : nat)
    (Hj0 : (j0 < length anns)%nat) :
  (forall i, In i (DeduplicateAnnotations anns) -> (i < length anns)%nat) /\
  exists i,
    filter (fun i' => key_eqb (ann_key anns i') (ann_key anns j0)) (DeduplicateAnnotations anns)
      = [i] /\
    (i < length anns)%nat /\ ann_key anns i = ann_key anns j0 /\
    (forall j, (j < length anns)%nat -> ann_key anns j = ann_key anns j0 ->
       (ann_score anns j <= ann_score anns i)%Q) /\
    (forall j, (j < i)%nat -> ann_key anns j = ann_key anns j0 ->
       (ann_score anns j < ann_score anns i)%Q).
Proof.
  assert (Hinit : dedup_inv anns 0 []).
  { split; [constructor|]. split; [intros k i []|intros j Hj; lia]. }
  pose proof (dedup_fold_inv anns 0 (length anns) [] Hinit ltac:(lia)) as Hinv.
  simpl in Hinv. unfold DeduplicateAnnotations.
  destruct Hinv as (Hnd & Hin & Hcov).
  split.
  - intros i Hi. apply in_map_iff in Hi. destruct Hi as [[k i'] [Heq Hki]].
    simpl in Heq. subst i'. apply Hin in Hki. tauto.
  - destruct (Hcov j0 Hj0) as [i Hi]. exists i.
    destruct (Hin _ _ Hi) as (Hk & Hil & Hle & Hlt).
    split.
    + apply (filter_unique_key (ann_key anns)); [exact Hnd | exact Hi |].
      intros k' i' H. exact (proj1 (Hin _ _ H)).
    + split; [exact Hil|]. split; [symmetry; exact Hk|]. split; [exact Hle | exact Hlt].
Qed.

Lemma DeduplicateAnnotations_spec_witness :
  DeduplicateAnnotations ex_dedup_anns = [1%nat] /\
  exists i,
    filter (fun i' => key_eqb (ann_key ex_dedup_anns i') (ann_key ex_dedup_anns 0))
      (DeduplicateAnnotations ex_dedup_anns) = [i] /\
    (forall j, (j < 2)%nat -> ann_key ex_dedup_anns j = ann_key ex_dedup_anns 0 ->
       (ann_score ex_dedup_anns j <= ann_score ex_dedup_anns i)%Q).
Proof.
  split; [vm_compute; reflexivity|].
  destruct (DeduplicateAnnotations_spec ex_dedup_anns 0 ltac:(simpl; lia))
    as [_ [i (Hf & _ & _ & Hle & _)]].
  exists i. split; [exact Hf | exact Hle].
Defined.

(** ** The rule pass *)

Lemma rule_actions_loop_ok (env : Env) (hed : bool) (ras : list RuleActionSpec)
    (groups : list (option string)) (r : ActionsSuggestionsResponse) :
  fst (rule_actions_loop env hed ras groups r) = true ->
  actions (snd (rule_actions_loop env hed ras groups r)) =
    (actions r ++ map (fun ra => described_action env hed ra groups) ras)%list /\
  response_status (snd (rule_actions_loop env hed ras groups r)) = response_status r.
Proof.
  revert r. induction ras as [|ra rest IH]; intros r; simpl.
  - intros _. rewrite app_nil_r. auto.
  - destruct (rule_entity_data env hed ra groups) as [d|] eqn:E; simpl; [|discriminate].
    intros Hok. destruct (IH _ Hok) as [Ha Hs]. split; [|exact Hs].
    rewrite Ha. simpl. rewrite <- app_assoc. simpl. do 3 f_equal.
    unfold rule_suggestion, described_action. f_equal.
    destruct hed; [rewrite E; reflexivity | simpl in E; inversion E; reflexivity].
Qed.

Lemma matches_loop_ok (env : Env) (rule' : Rule) (hed : bool) (finds : list FindResult)
    (r : ActionsSuggestionsResponse) :
  fst (matches_loop env rule' hed finds r) = true ->
  actions (snd (matches_loop env rule' hed finds r)) =
    (actions r ++ flat_map (fun f => map (fun ra => described_action env hed ra (find_groups f))
                                      (rule_actions rule'))
                    (successful_finds finds))%list /\
  response_status (snd (matches_loop env rule' hed finds r)) = response_status r.
Proof.
  revert r. induction finds as [|f rest IH]; intros r; simpl.
  - intros _. rewrite app_nil_r. auto.
  - destruct (find_found f && Z.eqb (find_status f) kNoError); simpl.
    + destruct (rule_actions_loop env hed (rule_actions rule') (find_groups f) r)
        as [[|] r'] eqn:E; simpl; [|discriminate].
      intros Hok. destruct (IH _ Hok) as [Ha Hs].
      assert (Hfst : fst (rule_actions_loop env hed (rule_actions rule') (find_groups f) r) = true)
        by (rewrite E; reflexivity).
      destruct (rule_actions_loop_ok env hed (rule_actions rule') (find_groups f) r Hfst)
        as [Ha' Hs']. rewrite E in Ha', Hs'. simpl in Ha', Hs'.
      split; [|congruence]. rewrite Ha, Ha', app_assoc. reflexivity.
    + intros _. rewrite app_nil_r. auto.
Qed.

Lemma rules_loop_ok (env : Env) (rules : list CompiledRule) (message : string)
    (r : ActionsSuggestionsResponse) :
  fst (rules_loop env rules message r) = true ->
  actions (snd (rules_loop env rules message r)) =
    (actions r ++ described_rule_actions env rules message)%list /\
  response_status (snd (rules_loop env rules message r)) = response_status r.
Proof.
  revert r. induction rules as [|cr rest IH]; intros r; simpl.
  - intros _. unfold described_rule_actions. simpl. rewrite app_nil_r. auto.
  - destruct (matches_loop env (rule cr) (HasEntityData (rule cr))
                (regex_find env (compiled_pattern cr) message) r) as [[|] r'] eqn:E;
      simpl; [|discriminate].
    intros Hok. destruct (IH _ Hok) as [Ha Hs].
    assert (Hfst : fst (matches_loop env (rule cr) (HasEntityData (rule cr))
                          (regex_find env (compiled_pattern cr) message) r) = true)
      by (rewrite E; reflexivity).
    destruct (matches_loop_ok _ _ _ _ _ Hfst) as [Ha' Hs'].
    rewrite E in Ha', Hs'. simpl in Ha', Hs'.
    split; [|congruence]. rewrite Ha, Ha', <- app_assoc. reflexivity.
Qed.

Lemma rule_actions_loop_no_entity (env : Env) (ras : list RuleActionSpec)
    (groups : list (option string)) (r : ActionsSuggestionsResponse) :
  fst (rule_actions_loop env false ras groups r) = true.
Proof.
  revert r. induction ras as [|ra rest IH]; intros r; simpl; [reflexivity|]. apply IH.
Qed.

Lemma matches_loop_no_entity (env : Env) (rule' : Rule) (finds : list FindResult)
    (r : ActionsSuggestionsResponse) :
  fst (matches_loop env rule' false finds r) = true.
Proof.
  revert r. induction finds as [|f rest IH]; intros r; simpl; [reflexivity|].
  destruct (find_found f && Z.eqb (find_status f) kNoError); [|reflexivity].
  pose proof (rule_actions_loop_no_entity env (rule_actions rule') (find_groups f) r) as H.
  destruct (rule_actions_loop env false (rule_actions rule') (find_groups f) r) as [[|] r'];
    simpl in H; [apply IH | discriminate].
Qed.

(** C6: the rule pass reads only the text of the last message; when it
    succeeds it appends, after the actions already present and in order,
    exactly one suggestion per rule, per successful match and per action
    spec of the rule, carrying the declared response text (empty if
    none), type, static score and serialized entity data, which is empty
    when the rule declares no entity data; the rest of the response is
    left alone; and it cannot fail when no rule declares entity data. *)
Theorem SuggestActionsFromRules_spec (self : ActionsSuggestions) (env : Env) :
  (forall c1 c2 r,
     text (last c1 empty_message) = text (last c2 empty_message) ->
     SuggestActionsFromRules self env c1 r = SuggestActionsFromRules self env c2 r) /\
  (forall conv r,
     fst (SuggestActionsFromRules self env conv r) = true ->
     actions (snd (SuggestActionsFromRules self env conv r)) =
       (actions r ++ described_rule_actions env (rules_ self) (text (last conv empty_message)))%list /\
     response_status (snd (SuggestActionsFromRules self env conv r)) = response_status r) /\
  (forall conv r,
     Forall (fun cr => HasEntityData (rule cr) = false) (rules_ self) ->
     fst (SuggestActionsFromRules self env conv r) = true).
Proof.
  split; [|split].
  - intros c1 c2 r H. unfold SuggestActionsFromRules. rewrite H. reflexivity.
  - intros conv r. apply rules_loop_ok.
  - intros conv r Hall. unfold SuggestActionsFromRules.
    generalize (text (last conv empty_message)) as message. revert r.
    induction Hall as [|cr rest Hcr Hall IH]; intros r message; simpl; [reflexivity|].
    pose proof (matches_loop_no_entity env (rule cr)
                  (regex_find env (compiled_pattern cr) message) r) as H.
    rewrite Hcr.
    destruct (matches_loop env (rule cr) false (regex_find env (compiled_pattern cr) message) r)
      as [[|] r']; simpl in H; [apply IH | discriminate].
Qed.

Lemma SuggestActionsFromRules_spec_witness :
  actions (snd (SuggestActionsFromRules (ex_self (-1) None) (ex_env finds_once)
                  ex_conversation default_response)) = [ex_rule_action].
Proof.
  destruct (SuggestActionsFromRules_spec (ex_self (-1) None) (ex_env finds_once))
    as (_ & Hok & Hall).
  destruct (Hok ex_conversation default_response
              (Hall ex_conversation default_response ltac:(vm_compute; repeat constructor)))
    as [Ha _].
  rewrite Ha. vm_compute. reflexivity.
Defined.
End PipelineProps.

(* ================================================================== *)
(** * Further properties of the trie *)

Module TrieExtraProps.

Import Trie Examples.

Lemma gather_loop_until_zero (t : DoubleArrayTrie) (input : list N) (i : Z) (pos : N)
    (acc : list TrieMatch) :
  gather_loop t input i pos acc = gather_loop t (until_zero input) i pos acc.
Proof.
  revert i pos acc. induction input as [|c rest IH]; intros i pos acc; [reflexivity|].
  simpl until_zero. destruct (c =? 0)%N eqn:Hc.
  - simpl. rewrite Hc. reflexivity.
  - cbn [gather_loop]. rewrite Hc.
    destruct (nodes_length_ t <=? N.lxor pos c)%N; [reflexivity|].
    destruct (node_at t (N.lxor pos c)) as [n|]; [|reflexivity].
    destruct (negb _); [reflexivity|].
    destruct (nodes_length_ t <? _)%N; [reflexivity|].
    destruct (node_has_leaf n); [destruct (node_at t _); [apply IH|reflexivity] | apply IH].
Qed.

Lemma StronglySorted_app_last {A : Type} (R : A -> A -> Prop) (l : list A) (x : A) :
  StronglySorted R l -> Forall (fun y => R y x) l -> StronglySorted R (l ++ [x])%list.
Proof.
  induction l as [|y l IH]; simpl; intros Hs Hf.
  - repeat constructor.
  - inversion Hs as [|? ? Hs' Hy]; subst. inversion Hf as [|? ? Hyx Hf']; subst.
    constructor; [apply IH; assumption|].
    apply Forall_app. split; [exact Hy | constructor; [exact Hyx | constructor]].
Qed.

(** The matches of a run: in strictly increasing order of length, each
    length between [1] and the number of bytes read, each id the value of
    a node of the trie. *)
Lemma gather_loop_matches (t : DoubleArrayTrie) (input : list N) (i : Z) (pos : N)
    (acc : list TrieMatch) :
  0 <= i ->
  StronglySorted (fun a b => match_length a < match_length b) acc ->
  (forall m, In m acc -> 1 <= match_length m <= i /\
                         exists n, In n (nodes_ t) /\ match_id m = node_value n) ->
  StronglySorted (fun a b => match_length a < match_length b)
    (outcome_matches (gather_loop t input i pos acc)) /\
  (forall m, In m (outcome_matches (gather_loop t input i pos acc)) ->
     1 <= match_length m <= i + Z.of_nat (length (until_zero input)) /\
     exists n, In n (nodes_ t) /\ match_id m = node_value n).
Proof.
  revert i pos acc. induction input as [|c rest IH]; intros i pos acc Hi Hs Hm.
  - simpl. split; [exact Hs|]. intros m H. destruct (Hm m H) as [Hb Hn].
    split; [lia | exact Hn].
  - assert (Hstop : StronglySorted (fun a b => match_length a < match_length b) acc /\
                    (forall m, In m acc ->
                       1 <= match_length m <= i + Z.of_nat (length (until_zero (c :: rest))) /\
                       exists n, In n (nodes_ t) /\ match_id m = node_value n)).
    { split; [exact Hs|]. intros m H. destruct (Hm m H) as [Hb Hn]. split; [lia | exact Hn]. }
    cbn [gather_loop]. destruct (c =? 0)%N eqn:Hc; [exact Hstop|].
    destruct (nodes_length_ t <=? N.lxor pos c)%N; [exact Hstop|].
    destruct (node_at t (N.lxor pos c)) as [n|]; [|exact Hstop].
    destruct (negb _); [exact Hstop|].
    destruct (nodes_length_ t <? _)%N; [exact Hstop|].
    simpl until_zero in *. rewrite Hc in *. simpl length.
    destruct (node_has_leaf n).
    + destruct (node_at t (N.lxor (N.lxor pos c) (node_offset n))) as [leaf|] eqn:Hleaf;
        [|exact Hstop].
      destruct (IH (i + 1) (N.lxor (N.lxor pos c) (node_offset n))
                  ((acc ++ [mkTrieMatch (node_value leaf) (i + 1)])%list)) as [H1 H2].
      * lia.
      * apply StronglySorted_app_last; [exact Hs|].
        apply Forall_forall. intros m Hin. simpl. destruct (Hm m Hin). lia.
      * intros m Hin. apply in_app_or in Hin. destruct Hin as [Hin|[<-|[]]].
        -- destruct (Hm m Hin) as [Hb Hn]. split; [lia | exact Hn].
        -- simpl. split; [lia|]. exists leaf. split; [|reflexivity].
           exact (nth_error_In _ _ Hleaf).
      * split; [exact H1|]. intros m Hin. destruct (H2 m Hin) as [Hb Hn]. split; [lia | exact Hn].
    + destruct (IH (i + 1) (N.lxor (N.lxor pos c) (node_offset n)) acc) as [H1 H2];
        [lia | exact Hs | |].
      * intros m Hin. destruct (Hm m Hin) as [Hb Hn]. split; [lia | exact Hn].
      * split; [exact H1|]. intros m Hin. destruct (H2 m Hin) as [Hb Hn]. split; [lia | exact Hn].
Qed.

Lemma GatherPrefixMatches_matches (t : DoubleArrayTrie) (input : list N) :
  StronglySorted (fun a b => match_length a < match_length b)
    (outcome_matches (GatherPrefixMatches t input)) /\
  (forall m, In m (outcome_matches (GatherPrefixMatches t input)) ->
     1 <= match_length m <= Z.of_nat (length (until_zero input)) /\
     exists n, In n (nodes_ t) /\ match_id m = node_value n).
Proof.
  unfold GatherPrefixMatches. destruct (nodes_length_ t =? 0)%N.
  - simpl. split; [constructor | intros m []].
  - apply (gather_loop_matches t input 0 (offset t 0) []); [lia | constructor | intros m []].
Qed.

Lemma gather_loop_extends (t : DoubleArrayTrie) (input : list N) (i : Z) (pos : N)
    (acc : list TrieMatch) :
  exists more, outcome_matches (gather_loop t input i pos acc) = (acc ++ more)%list.
Proof.
  revert i pos acc. induction input as [|c rest IH]; intros i pos acc;
    [exists []; simpl; rewrite app_nil_r; reflexivity|].
  cbn [gather_loop].
  destruct (c =? 0)%N; [exists []; simpl; rewrite app_nil_r; reflexivity|].
  destruct (nodes_length_ t <=? N.lxor pos c)%N; [exists []; simpl; rewrite app_nil_r; reflexivity|].
  destruct (node_at t (N.lxor pos c)) as [n|]; [|exists []; simpl; rewrite app_nil_r; reflexivity].
  destruct (negb _); [exists []; simpl; rewrite app_nil_r; reflexivity|].
  destruct (nodes_length_ t <? _)%N; [exists []; simpl; rewrite app_nil_r; reflexivity|].
  destruct (node_has_leaf n).
  - destruct (node_at t _) as [leaf|]; [|exists []; simpl; rewrite app_nil_r; reflexivity].
    destruct (IH (i + 1) (N.lxor (N.lxor pos c) (node_offset n))
                ((acc ++ [mkTrieMatch (node_value leaf) (i + 1)])%list)) as [more Hm].
    exists (mkTrieMatch (node_value leaf) (i + 1) :: more). rewrite Hm, <- app_assoc. reflexivity.
  - apply IH.
Qed.

Lemma gather_loop_app (t : DoubleArrayTrie) (p q : list N) (i : Z) (pos : N)
    (acc : list TrieMatch) :
  (exists more, outcome_matches (gather_loop t (p ++ q)%list i pos acc) =
                (outcome_matches (gather_loop t p i pos acc) ++ more)%list) /\
  ((forall ms, gather_loop t p i pos acc <> Gathered true ms) ->
   gather_loop t (p ++ q)%list i pos acc = gather_loop t p i pos acc).
Proof.
  revert i pos acc. induction p as [|c rest IH]; intros i pos acc.
  - split.
    + simpl app. destruct (gather_loop_extends t q i pos acc) as [more Hm].
      exists more. exact Hm.
    + intros H. exfalso. exact (H acc eq_refl).
  - cbn [app gather_loop].
    destruct (c =? 0)%N;
      [split; [exists []; rewrite app_nil_r; reflexivity | reflexivity]|].
    destruct (nodes_length_ t <=? N.lxor pos c)%N;
      [split; [exists []; rewrite app_nil_r; reflexivity | reflexivity]|].
    destruct (node_at t (N.lxor pos c)) as [n|];
      [|split; [exists []; rewrite app_nil_r; reflexivity | reflexivity]].
    destruct (negb _); [split; [exists []; rewrite app_nil_r; reflexivity | reflexivity]|].
    destruct (nodes_length_ t <? _)%N;
      [split; [exists []; rewrite app_nil_r; reflexivity | reflexivity]|].
    destruct (node_has_leaf n).
    + destruct (node_at t _) as [leaf|];
        [apply IH | split; [exists []; rewrite app_nil_r; reflexivity | reflexivity]].
    + apply IH.
Qed.

Lemma gather_loop_closed (t : DoubleArrayTrie)
    (Hclosed : forall p n, node_at t p = Some n -> (N.lxor p (node_offset n) < nodes_length_ t)%N)
    (input : list N) (i : Z) (pos : N) (acc : list TrieMatch) :
  exists ms, gather_loop t input i pos acc = Gathered true ms.
Proof.
  revert i pos acc. induction input as [|c rest IH]; intros i pos acc; [eexists; reflexivity|].
  cbn [gather_loop].
  destruct (c =? 0)%N; [eexists; reflexivity|].
  destruct (nodes_length_ t <=? N.lxor pos c)%N; [eexists; reflexivity|].
  destruct (node_at t (N.lxor pos c)) as [n|] eqn:Hn; [|eexists; reflexivity].
  destruct (negb _); [eexists; reflexivity|].
  pose proof (Hclosed _ _ Hn) as Hlt.
  replace (nodes_length_ t <? N.lxor (N.lxor pos c) (node_offset n))%N with false
    by (symmetry; apply N.ltb_ge; lia).
  destruct (node_has_leaf n); [|apply IH].
  destruct (node_at t (N.lxor (N.lxor pos c) (node_offset n))) as [leaf|] eqn:Hl; [apply IH|].
  exfalso. unfold node_at in Hl. apply nth_error_None in Hl.
  unfold nodes_length_ in Hlt. lia.
Qed.

Lemma last_of_sorted {A : Type} (R : A -> A -> Prop) (l : list A) (d : A) :
  StronglySorted R l -> l <> [] ->
  In (last l d) l /\ forall x, In x l -> x = last l d \/ R x (last l d).
Proof.
  induction l as [|x l IH]; intros Hs Hne; [congruence|].
  inversion Hs as [|? ? Hs' Hx]; subst.
  destruct l as [|y l'].
  - simpl. split; [left; reflexivity|]. intros z [<-|[]]. left; reflexivity.
  - destruct (IH Hs' ltac:(discriminate)) as [Hin Hall].
    change (last (x :: y :: l') d) with (last (y :: l') d).
    split; [right; exact Hin|].
    intros z [<-|Hz]; [|exact (Hall z Hz)].
    right. rewrite Forall_forall in Hx. apply Hx. exact Hin.
Qed.

Lemma fold_overwrite_last {A : Type} (l : list A) (d : A) :
  fold_left (fun _ m => m) l d = last l d.
Proof.
  assert (Hind : forall (y : A) (l' : list A) (d1 d2 : A), last (y :: l') d1 = last (y :: l') d2).
  { intros y l'. revert y. induction l' as [|z l' IHl]; intros y d1 d2; [reflexivity|].
    change (last (z :: l') d1 = last (z :: l') d2). apply IHl. }
  revert d. induction l as [|x l IH]; intros d; [reflexivity|].
  simpl. rewrite IH. destruct l as [|y l]; [reflexivity|].
  change (last (y :: l) x = last (y :: l) d). apply Hind.
Qed.

(** Only the bytes before the first zero byte of the input are read: the
    outcome of [GatherPrefixMatches] is the same on the truncated input. *)
Theorem GatherPrefixMatches_stops_at_zero_byte (t : DoubleArrayTrie) (input : list N) :
  GatherPrefixMatches t input = GatherPrefixMatches t (until_zero input).
Proof.
  unfold GatherPrefixMatches. destruct (nodes_length_ t =? 0)%N; [reflexivity|].
  apply gather_loop_until_zero.
Qed.

(** The matches handed to the callback come in strictly increasing order
    of length; each length is between 1 and the number of bytes before
    the first zero byte; each id is the value of a node of the trie. *)
Theorem GatherPrefixMatches_increasing_lengths (t : DoubleArrayTrie) (input : list N) :
  StronglySorted (fun a b => match_length a < match_length b)
    (outcome_matches (GatherPrefixMatches t input)) /\
  (forall m, In m (outcome_matches (GatherPrefixMatches t input)) ->
     1 <= match_length m <= Z.of_nat (length (until_zero input)) /\
     exists n, In n (nodes_ t) /\ match_id m = node_value n).
Proof. apply GatherPrefixMatches_matches. Qed.

(** Extending the input only adds matches after those of the shorter
    input; and when the call on the shorter input fails or reads out of
    bounds, the call on the longer input has the very same outcome. *)
Theorem GatherPrefixMatches_prefix_monotone (t : DoubleArrayTrie) (p q : list N) :
  (exists more, outcome_matches (GatherPrefixMatches t (p ++ q)%list) =
                (outcome_matches (GatherPrefixMatches t p) ++ more)%list) /\
  ((forall ms, GatherPrefixMatches t p <> Gathered true ms) ->
   GatherPrefixMatches t (p ++ q)%list = GatherPrefixMatches t p).
Proof.
  unfold GatherPrefixMatches. destruct (nodes_length_ t =? 0)%N.
  - split; [exists []; reflexivity | intros H; exfalso; exact (H [] eq_refl)].
  - apply gather_loop_app.
Qed.

(** On a trie where every node's XOR with its offset stays below the
    number of nodes, [GatherPrefixMatches] never fails and never reads out
    of bounds, whatever the input. *)
Theorem GatherPrefixMatches_closed_trie_succeeds (t : DoubleArrayTrie)
    (Hclosed : forall p n, node_at t p = Some n -> (N.lxor p (node_offset n) < nodes_length_ t)%N)
    (input : list N) :
  exists ms, GatherPrefixMatches t input = Gathered true ms.
Proof.
  unfold GatherPrefixMatches. destruct (nodes_length_ t =? 0)%N; [eexists; reflexivity|].
  apply gather_loop_closed. exact Hclosed.
Qed.

Lemma ex_trie_closed_closed :
  forall p n, node_at ex_trie_closed p = Some n ->
              (N.lxor p (node_offset n) < nodes_length_ ex_trie_closed)%N.
Proof.
  intros p n H. unfold node_at in H. simpl in H.
  destruct (N.to_nat p) as [|[|k]] eqn:E; simpl in H.
  - inversion H; subst. assert (p = 0%N) by lia. subst. vm_compute. reflexivity.
  - inversion H; subst. assert (p = 1%N) by lia. subst. vm_compute. reflexivity.
  - destruct k; discriminate.
Qed.

Lemma GatherPrefixMatches_closed_trie_succeeds_witness :
  GatherPrefixMatches ex_trie_closed [1%N] = Gathered true [mkTrieMatch 3 1] /\
  exists ms, GatherPrefixMatches ex_trie_closed [1%N; 200%N; 1%N] = Gathered true ms.
Proof.
  split; [vm_compute; reflexivity|].
  apply (GatherPrefixMatches_closed_trie_succeeds ex_trie_closed ex_trie_closed_closed).
Defined.

(** [LongestPrefixMatch] keeps the longest match that
    [FindAllPrefixMatches] reports, and the default match when there is
    none; both report the same status. *)
Theorem LongestPrefixMatch_is_longest (t : DoubleArrayTrie) (input : list N)
    (empty_match : TrieMatch) (ok : bool) (ms : list TrieMatch)
    (Hall : FindAllPrefixMatches t input = Some (ok, ms)) :
  (ms = [] -> LongestPrefixMatch t input empty_match = Some (ok, empty_match)) /\
  (ms <> [] -> exists m, LongestPrefixMatch t input empty_match = Some (ok, m) /\ In m ms /\
                         forall m', In m' ms -> match_length m' <= match_length m).
Proof.
  pose proof (GatherPrefixMatches_matches t input) as [Hs _].
  unfold FindAllPrefixMatches, LongestPrefixMatch in *.
  destruct (GatherPrefixMatches t input) as [ok' ms'|ms']; [|discriminate].
  inversion Hall; subst. simpl in Hs. rewrite fold_overwrite_last.
  split.
  - intros ->. reflexivity.
  - intros Hne. destruct (last_of_sorted _ ms empty_match Hs Hne) as [Hin Hmax].
    exists (last ms empty_match). split; [reflexivity|]. split; [exact Hin|].
    intros m' Hm'. destruct (Hmax m' Hm') as [->|Hlt]; lia.
Qed.

Lemma LongestPrefixMatch_is_longest_witness :
  LongestPrefixMatch ex_trie_closed [1%N] (mkTrieMatch (-1) (-1)) = Some (true, mkTrieMatch 3 1).
Proof.
  destruct (LongestPrefixMatch_is_longest ex_trie_closed [1%N] (mkTrieMatch (-1) (-1)) true
              [mkTrieMatch 3 1] ltac:(vm_compute; reflexivity)) as [_ H].
  destruct (H ltac:(discriminate)) as (m & Hm & Hin & _).
  destruct Hin as [<-|[]]. exact Hm.
Defined.

End TrieExtraProps.

(* ================================================================== *)
(** * Further properties of the suggestion pipeline *)

Module ActionsExtraProps.

Import Actions Examples.

Lemma num_messages_of_eq (self : ActionsSuggestions) (conv : Conversation) :
  num_messages_of self conv =
  (if max_conversation_history_length (model_ self) <? 0 then Z.of_nat (length conv)
   else Z.min (Z.of_nat (length conv)) (max_conversation_history_length (model_ self))).
Proof.
  unfold num_messages_of.
  destruct (Z.ltb_spec (max_conversation_history_length (model_ self)) 0); [reflexivity|].
  simpl.
  destruct (Z.ltb_spec (Z.of_nat (length conv)) (max_conversation_history_length (model_ self))).
  - rewrite Z.min_l by lia. reflexivity.
  - rewrite Z.min_r by lia. reflexivity.
Qed.

(** The number of messages the pipeline reads is the conversation length,
    capped by [max_conversation_history_length] unless that is negative;
    so a model with [max_conversation_history_length = 0] fails every
    non-empty conversation and [SuggestActions] returns no action. *)
Theorem zero_history_never_suggests (self : ActionsSuggestions) (env : Env)
    (conv : Conversation) (options : ActionSuggestionOptions) :
  num_messages_of self conv =
    (if max_conversation_history_length (model_ self) <? 0 then Z.of_nat (length conv)
     else Z.min (Z.of_nat (length conv)) (max_conversation_history_length (model_ self))) /\
  (conv <> [] -> max_conversation_history_length (model_ self) = 0 ->
   GatherActionsSuggestions self env conv options = (false, default_response) /\
   actions (SuggestActions self env conv options) = []).
Proof.
  pose proof (num_messages_of_eq self conv) as Hn.
  split; [exact Hn|]. intros Hc H0. rewrite H0 in Hn. simpl in Hn.
  rewrite Z.min_r in Hn by lia.
  unfold SuggestActions, GatherActionsSuggestions.
  destruct conv as [|m ms]; [congruence|]. rewrite Hn. simpl. split; reflexivity.
Qed.

Lemma zero_history_never_suggests_witness :
  actions (SuggestActions ex_self_no_history (ex_env finds_once) ex_conversation ex_options) = [].
Proof.
  destruct (zero_history_never_suggests ex_self_no_history (ex_env finds_once) ex_conversation
              ex_options) as [_ H].
  destruct (H ltac:(discriminate) eq_refl) as [_ Ha]. exact Ha.
Defined.

(** For [0 <= num_messages <= size], the input is of low confidence
    exactly when one of the last [num_messages] messages has a first
    [Find] of some low confidence rule that succeeds without error. *)
Theorem IsLowConfidenceInput_spec (self : ActionsSuggestions) (env : Env) (conv : Conversation)
    (num_messages : Z) (Hn0 : 0 <= num_messages)
    (Hn : num_messages <= Z.of_nat (length conv)) :
  IsLowConfidenceInput self env conv num_messages = true <->
  exists m, In m (lastn num_messages conv) /\
            exists cr, In cr (low_confidence_rules_ self) /\
                       first_find_matches env cr (text m) = true.
Proof.
  unfold IsLowConfidenceInput, lastn.
  assert (HN : (Z.to_nat num_messages <= length conv)%nat) by lia.
  rewrite existsb_exists. split.
  - intros (i & Hi & Hr). apply in_seq in Hi. apply existsb_exists in Hr.
    destruct Hr as (cr & Hcr & Hf).
    exists (nth (length conv - i) conv empty_message). split.
    + replace (nth (length conv - i) conv empty_message)
        with (nth (Z.to_nat num_messages - i)
                (skipn (length conv - Z.to_nat num_messages) conv) empty_message).
      * apply nth_In. rewrite length_skipn. lia.
      * rewrite nth_skipn. f_equal. lia.
    + exists cr. split; assumption.
  - intros (m & Hm & cr & Hcr & Hf). apply In_nth with (d := empty_message) in Hm.
    destruct Hm as (k & Hk & Hkm). rewrite length_skipn in Hk. rewrite nth_skipn in Hkm.
    exists (Z.to_nat num_messages - k)%nat. split; [apply in_seq; lia|].
    apply existsb_exists. exists cr. split; [exact Hcr|].
    replace (length conv - (Z.to_nat num_messages - k))%nat
      with (length conv - Z.to_nat num_messages + k)%nat by lia.
    rewrite Hkm. exact Hf.
Qed.

Lemma IsLowConfidenceInput_spec_witness :
  IsLowConfidenceInput
    (mkActionsSuggestions (ex_model (-1)) [loc_en] [] [mkCompiledRule ex_rule "hi"] None)
    (ex_env finds_once) ex_conversation 1 = true.
Proof.
  apply (IsLowConfidenceInput_spec
           (mkActionsSuggestions (ex_model (-1)) [loc_en] [] [mkCompiledRule ex_rule "hi"] None)
           (ex_env finds_once) ex_conversation 1 ltac:(lia) ltac:(simpl; lia)).
  exists (mkMessage 1 "hi" 0 "en" []). split; [left; reflexivity|].
  exists (mkCompiledRule ex_rule "hi"). split; [left; reflexivity | reflexivity].
Defined.

Lemma fold_count_bound {A : Type} (g : Z -> A -> Z)
    (Hg : forall acc x, acc <= g acc x <= acc + 1) (l : list A) (acc : Z) :
  acc <= fold_left g l acc <= acc + Z.of_nat (length l).
Proof.
  revert acc. induction l as [|x l IH]; intros acc; simpl; [lia|].
  specialize (IH (g acc x)). specialize (Hg acc x). lia.
Qed.

(** The number of messages with a supported locale is between [0] and
    [num_messages]; so with [min_locale_match_fraction] above [1], the
    pipeline past the input length check always stops with the locale
    mismatch flag set and no model or rule action. *)
Theorem locale_fraction_above_one_filters (self : ActionsSuggestions) (env : Env)
    (conv : Conversation) (options : ActionSuggestionOptions) (num_messages : Z)
    (r : ActionsSuggestionsResponse)
    (Hn : 0 < num_messages)
    (Hfrac : (1 < min_locale_match_fraction (preconditions (model_ self)))%Q) :
  0 <= num_matching_locales_of self env conv num_messages <= num_messages /\
  GatherAfterLengthCheck self env conv options num_messages
    (num_matching_locales_of self env conv num_messages) r = (true, set_locale_mismatch r).
Proof.
  assert (Hb : 0 <= num_matching_locales_of self env conv num_messages <= num_messages).
  { unfold num_matching_locales_of.
    match goal with |- context [fold_left ?g ?l 0] =>
      pose proof (fold_count_bound g ltac:(intros acc x; cbv beta; destruct (parse_locales env (locales x))
                                            as [ls|]; [destruct (IsAnyLocaleSupportedByModel self ls)|]; lia)
                    l 0) as Hf
    end.
    unfold lastn in *. rewrite length_skipn in Hf. lia. }
  split; [exact Hb|].
  unfold GatherAfterLengthCheck.
  replace (Qltb _ _) with true; [reflexivity|]. symmetry. apply Qltb_iff.
  apply Qle_lt_trans with 1%Q; [|exact Hfrac].
  apply Qle_shift_div_r.
  - change 0%Q with (inject_Z 0). rewrite <- Zlt_Qlt. exact Hn.
  - rewrite Qmult_1_l. rewrite <- Zle_Qle. lia.
Qed.

Lemma locale_fraction_above_one_filters_witness :
  GatherAfterLengthCheck ex_self_strict_locales (ex_env finds_once) ex_conversation ex_options 1
    (num_matching_locales_of ex_self_strict_locales (ex_env finds_once) ex_conversation 1)
    default_response = (true, set_locale_mismatch default_response).
Proof.
  destruct (locale_fraction_above_one_filters ex_self_strict_locales (ex_env finds_once)
              ex_conversation ex_options 1 default_response ltac:(lia)
              ltac:(vm_compute; reflexivity)) as [_ H].
  exact H.
Defined.

Lemma time_diffs_loop_props (msgs : list ConversationMessage) (last_ms : Z) :
  length (time_diffs_loop msgs last_ms) = length msgs /\
  Forall (fun d => 0 <= d)%Q (time_diffs_loop msgs last_ms) /\
  (forall k, (k < length msgs)%nat -> reference_time_ms_utc (nth k msgs empty_message) = 0 ->
     nth k (time_diffs_loop msgs last_ms) 0%Q = 0%Q).
Proof.
  revert last_ms. induction msgs as [|m rest IH]; intros last_ms.
  - simpl. split; [reflexivity|]. split; [constructor|]. intros k Hk. simpl in Hk. lia.
  - destruct (IH (if negb (reference_time_ms_utc m =? 0) then reference_time_ms_utc m else last_ms))
      as (Hl & Hf & Hz).
    cbn [time_diffs_loop length]. split; [rewrite Hl; reflexivity|]. split.
    + constructor; [|exact Hf].
      destruct (negb _ && negb _); [apply Q.le_max_l | apply Qle_refl].
    + intros [|k] Hk Ht.
      * simpl in Ht |- *. rewrite Ht. reflexivity.
      * simpl. apply Hz; [simpl in Hk; lia | exact Ht].
Qed.

(** The time differences given to the model: one per selected message,
    never negative, [0] for the first message and for every message
    without a reference time. *)
Theorem model_input_time_diffs (self : ActionsSuggestions) (conv : Conversation)
    (num_messages : Z) :
  length (input_time_diffs (model_input self conv num_messages)) =
    length (lastn num_messages conv) /\
  Forall (fun d => 0 <= d)%Q (input_time_diffs (model_input self conv num_messages)) /\
  nth 0 (input_time_diffs (model_input self conv num_messages)) 0%Q = 0%Q /\
  (forall k, (k < length (lastn num_messages conv))%nat ->
     reference_time_ms_utc (nth k (lastn num_messages conv) empty_message) = 0 ->
     nth k (input_time_diffs (model_input self conv num_messages)) 0%Q = 0%Q).
Proof.
  unfold model_input. cbn [input_time_diffs].
  destruct (time_diffs_loop_props (lastn num_messages conv) 0) as (Hl & Hf & Hz).
  split; [exact Hl|]. split; [exact Hf|]. split; [|exact Hz].
  destruct (lastn num_messages conv) as [|m rest]; [reflexivity|].
  cbn [time_diffs_loop nth]. rewrite andb_false_r. reflexivity.
Qed.

Lemma replies_loop_appends (self : ActionsSuggestions) (replies : list string) (i : nat)
    (score_at : nat -> Q) (r : ActionsSuggestionsResponse) :
  exists added,
    actions (replies_loop self replies i score_at r) = (actions r ++ added)%list /\
    Forall (model_reply_action (model_ self)) added /\
    response_status (replies_loop self replies i score_at r) = response_status r.
Proof.
  revert i r. induction replies as [|reply rest IH]; intros i r; simpl.
  - exists []. rewrite app_nil_r. split; [reflexivity|]. split; [constructor | reflexivity].
  - destruct (Nat.eqb (String.length reply) 0) eqn:E.
    + exact (IH (S i) r).
    + destruct (IH (S i) (push_action r (mkAction reply (smart_reply_action_type (model_ self))
                                           (score_at i) [] ""))) as (added & Ha & Hf & Hs).
      exists (mkAction reply (smart_reply_action_type (model_ self)) (score_at i) [] "" :: added).
      split; [rewrite Ha; simpl; rewrite <- app_assoc; reflexivity|].
      split; [|exact Hs].
      constructor; [|exact Hf].
      unfold model_reply_action; simpl. split; [|split; [reflexivity | split; reflexivity]].
      intros Hr. subst reply. discriminate.
Qed.

Lemma action_types_loop_appends (self : ActionsSuggestions) (types : list ActionTypeOptions)
    (i : nat) (score_at : nat -> Q) (r : ActionsSuggestionsResponse)
    (Hincl : incl types (action_type (model_ self))) :
  exists added,
    actions (action_types_loop types i score_at r) = (actions r ++ added)%list /\
    Forall (model_class_action (model_ self)) added /\
    response_status (action_types_loop types i score_at r) = response_status r.
Proof.
  revert i r Hincl. induction types as [|t rest IH]; intros i r Hincl; simpl.
  - exists []. rewrite app_nil_r. split; [reflexivity|]. split; [constructor | reflexivity].
  - assert (Hrest : incl rest (action_type (model_ self))) by (intros x Hx; apply Hincl; right; exact Hx).
    destruct (negb (enabled t)) eqn:E1; [exact (IH (S i) r Hrest)|].
    destruct (Qltb (score_at i) (min_triggering_score t)) eqn:E2; [exact (IH (S i) r Hrest)|].
    destruct (IH (S i) (push_action r (mkAction "" (type_name t) (score_at i) [] "")) Hrest)
      as (added & Ha & Hf & Hs).
    exists (mkAction "" (type_name t) (score_at i) [] "" :: added).
    split; [rewrite Ha; simpl; rewrite <- app_assoc; reflexivity|].
    split; [|exact Hs].
    constructor; [|exact Hf].
    unfold model_class_action; simpl. split; [reflexivity|]. split; [reflexivity|].
    split; [reflexivity|]. exists t. split; [apply Hincl; left; reflexivity|].
    split; [destruct (enabled t); [reflexivity | discriminate]|]. split; [reflexivity|].
    apply Qnot_lt_le. intros Hlt. apply Qltb_iff in Hlt. congruence.
Qed.

Lemma read_triggering_score_keeps (self : ActionsSuggestions) interpreter options r r1 :
  read_triggering_score self interpreter options r = Some r1 ->
  actions r1 = actions r /\ output_filtered_sensitivity r1 = output_filtered_sensitivity r /\
  output_filtered_low_confidence r1 = output_filtered_low_confidence r /\
  output_filtered_locale_mismatch r1 = output_filtered_locale_mismatch r.
Proof.
  unfold read_triggering_score.
  destruct (0 <=? output_triggering_score (tflite_model_spec (model_ self))).
  - destruct (output_view interpreter _) as [v|]; [|discriminate].
    destruct (tv_size v =? 0); [discriminate|].
    intros H; injection H as <-. repeat split.
  - intros H; injection H as <-. repeat split.
Qed.

Lemma read_sensitivity_score_keeps (self : ActionsSuggestions) interpreter r r2 :
  read_sensitivity_score self interpreter r = Some r2 ->
  actions r2 = actions r /\
  output_filtered_min_triggering_score r2 = output_filtered_min_triggering_score r /\
  output_filtered_low_confidence r2 = output_filtered_low_confidence r /\
  output_filtered_locale_mismatch r2 = output_filtered_locale_mismatch r.
Proof.
  unfold read_sensitivity_score.
  destruct (0 <=? output_sensitive_topic_score (tflite_model_spec (model_ self))).
  - destruct (output_view interpreter _) as [v|]; [|discriminate].
    destruct (negb (tv_dim0 v =? 1)); [discriminate|].
    intros H; injection H as <-. repeat split.
  - intros H; injection H as <-. repeat split.
Qed.

Lemma read_smart_replies_appends (self : ActionsSuggestions) interpreter r :
  exists added,
    actions (read_smart_replies self interpreter r) = (actions r ++ added)%list /\
    Forall (model_reply_action (model_ self)) added /\
    response_status (read_smart_replies self interpreter r) = response_status r /\
    (output_filtered_min_triggering_score r = true -> added = []).
Proof.
  unfold read_smart_replies.
  destruct (negb (output_filtered_min_triggering_score r) && _) eqn:E.
  - destruct (replies_loop_appends self (output_strings interpreter
                 (output_replies (tflite_model_spec (model_ self)))) 0
                 (fun i => match output_view interpreter
                                   (output_replies_scores (tflite_model_spec (model_ self))) with
                           | Some v => tv_at v i | None => 0%Q end) r) as (added & Ha & Hf & Hs).
    exists added. split; [exact Ha|]. split; [exact Hf|]. split; [exact Hs|].
    intros Ht. rewrite Ht in E. discriminate.
  - exists []. rewrite app_nil_r. split; [reflexivity|]. split; [constructor|].
    split; [reflexivity|]. reflexivity.
Qed.

Lemma read_action_scores_appends (self : ActionsSuggestions) interpreter r :
  exists added,
    actions (read_action_scores self interpreter r) = (actions r ++ added)%list /\
    Forall (model_class_action (model_ self)) added /\
    response_status (read_action_scores self interpreter r) = response_status r.
Proof.
  unfold read_action_scores.
  destruct (0 <=? output_actions_scores (tflite_model_spec (model_ self))).
  - apply action_types_loop_appends. intros x Hx; exact Hx.
  - exists []. rewrite app_nil_r. split; [reflexivity|]. split; [constructor | reflexivity].
Qed.

Lemma ReadModelOutput_appends (self : ActionsSuggestions) interpreter options r :
  let r' := ReadModelOutput self interpreter options r in
  exists added,
    actions r' = (actions r ++ added)%list /\
    Forall (fun a => model_reply_action (model_ self) a \/ model_class_action (model_ self) a) added /\
    (output_filtered_sensitivity r' = true -> added = []) /\
    (output_filtered_min_triggering_score r' = true ->
       Forall (model_class_action (model_ self)) added) /\
    output_filtered_low_confidence r' = output_filtered_low_confidence r /\
    output_filtered_locale_mismatch r' = output_filtered_locale_mismatch r.
Proof.
  intros r'. subst r'. unfold ReadModelOutput.
  destruct (read_triggering_score self interpreter options r) as [r1|] eqn:E1.
  2:{ exists []. rewrite app_nil_r. repeat split; try constructor. }
  destruct (read_triggering_score_keeps self interpreter options r r1 E1) as (A1 & S1 & L1 & M1).
  destruct (read_sensitivity_score self interpreter r1) as [r2|] eqn:E2.
  2:{ exists []. rewrite app_nil_r. rewrite A1. repeat split; try constructor; assumption. }
  destruct (read_sensitivity_score_keeps self interpreter r1 r2 E2) as (A2 & T2 & L2 & M2).
  destruct (output_filtered_sensitivity r2) eqn:Es.
  { exists []. rewrite app_nil_r. rewrite A2, A1. repeat split; try constructor; congruence. }
  destruct (read_smart_replies_appends self interpreter r2) as (added1 & Ha1 & Hf1 & Hs1 & Hz1).
  destruct (read_action_scores_appends self interpreter (read_smart_replies self interpreter r2))
    as (added2 & Ha2 & Hf2 & Hs2).
  unfold response_status in Hs1, Hs2.
  injection Hs1 as _ _ Hs1s Hs1t Hs1l Hs1m. injection Hs2 as _ _ Hs2s Hs2t Hs2l Hs2m.
  exists (added1 ++ added2)%list.
  split; [rewrite Ha2, Ha1, A2, A1, app_assoc; reflexivity|].
  split.
  { apply Forall_app. split.
    - eapply Forall_impl; [|exact Hf1]. intros a Ha; left; exact Ha.
    - eapply Forall_impl; [|exact Hf2]. intros a Ha; right; exact Ha. }
  split; [rewrite Hs2s, Hs1s, Es; discriminate|].
  split.
  { intros Ht. rewrite Hs2t, Hs1t in Ht. rewrite (Hz1 Ht). exact Hf2. }
  split; congruence.
Qed.

(** Running the model only appends actions: smart replies (non-empty
    text, the model's smart reply type, no annotation or entity data) and
    action classes (empty text, type and threshold of an enabled action
    type of the model, score at or above its threshold). None is added
    when the result is flagged sensitive, only classes when it is flagged
    under the triggering threshold, and the low confidence and locale
    mismatch flags are left alone. *)
Theorem SuggestActionsFromModel_appends (self : ActionsSuggestions) (conv : Conversation)
    (num_messages : Z) (options : ActionSuggestionOptions) (r : ActionsSuggestionsResponse) :
  let r' := SuggestActionsFromModel self conv num_messages options r in
  exists added,
    actions r' = (actions r ++ added)%list /\
    Forall (fun a => model_reply_action (model_ self) a \/ model_class_action (model_ self) a) added /\
    (output_filtered_sensitivity r' = true -> added = []) /\
    (output_filtered_min_triggering_score r' = true ->
       Forall (model_class_action (model_ self)) added) /\
    output_filtered_low_confidence r' = output_filtered_low_confidence r /\
    output_filtered_locale_mismatch r' = output_filtered_locale_mismatch r.
Proof.
  intros r'. subst r'. unfold SuggestActionsFromModel.
  destruct (model_executor_ self) as [executor|].
  2:{ exists []. rewrite app_nil_r. repeat split; constructor. }
  destruct (run_interpreter executor _) as [interpreter|].
  2:{ exists []. rewrite app_nil_r. repeat split; constructor. }
  apply ReadModelOutput_appends.
Qed.

Lemma fold_left_appends {A : Type} (P : ActionSuggestion -> Prop)
    (f : ActionsSuggestionsResponse -> A -> ActionsSuggestionsResponse) (l : list A)
    (r : ActionsSuggestionsResponse) :
  (forall r x, In x l ->
     exists added, actions (f r x) = (actions r ++ added)%list /\ Forall P added /\
                   response_status (f r x) = response_status r) ->
  exists added, actions (fold_left f l r) = (actions r ++ added)%list /\ Forall P added /\
                response_status (fold_left f l r) = response_status r.
Proof.
  revert r. induction l as [|x l IH]; intros r Hf; simpl.
  - exists []. rewrite app_nil_r. split; [reflexivity|]. split; [constructor | reflexivity].
  - destruct (Hf r x (or_introl eq_refl)) as (added1 & Ha1 & Hp1 & Hs1).
    destruct (IH (f r x) (fun r' y Hy => Hf r' y (or_intror Hy))) as (added2 & Ha2 & Hp2 & Hs2).
    exists (added1 ++ added2)%list.
    split; [rewrite Ha2, Ha1, app_assoc; reflexivity|].
    split; [apply Forall_app; split; assumption|].
    rewrite Hs2. exact Hs1.
Qed.

Lemma CreateActionsFromAnnotation_appends (self : ActionsSuggestions) (message_index' : Z)
    (ann : ActionSuggestionAnnotation) (r : ActionsSuggestionsResponse) :
  exists added,
    actions (CreateActionsFromAnnotation self message_index' ann r) = (actions r ++ added)%list /\
    Forall (mapped_annotation_action self ann) added /\
    response_status (CreateActionsFromAnnotation self message_index' ann r) = response_status r.
Proof.
  unfold CreateActionsFromAnnotation. apply fold_left_appends.
  intros r' mapping Hm.
  destruct (String.eqb (collection (entity ann)) (annotation_collection mapping)) eqn:E1.
  2:{ exists []. rewrite app_nil_r. split; [reflexivity|]. split; [constructor | reflexivity]. }
  destruct (Qltb (score (entity ann)) (min_annotation_score mapping)) eqn:E2.
  { exists []. rewrite app_nil_r. split; [reflexivity|]. split; [constructor | reflexivity]. }
  eexists [_]. split; [reflexivity|]. split; [|reflexivity].
  constructor; [|constructor].
  unfold mapped_annotation_action; simpl. split; [reflexivity|]. split; [reflexivity|].
  exists mapping. split; [exact Hm|].
  split; [symmetry; apply String.eqb_eq; exact E1|].
  split; [apply Qnot_lt_le; intros Hlt; apply Qltb_iff in Hlt; congruence|].
  repeat split.
Qed.

Lemma DeduplicateAnnotations_in_range (anns : list ActionSuggestionAnnotation) (i : nat) :
  In i (DeduplicateAnnotations anns) -> (i < length anns)%nat.
Proof.
  assert (Hinit : dedup_inv anns 0 []).
  { split; [constructor|]. split; [intros k i' []|intros j Hj; lia]. }
  pose proof (PipelineProps.dedup_fold_inv anns 0 (length anns) [] Hinit ltac:(lia)) as Hinv.
  simpl in Hinv. unfold DeduplicateAnnotations. destruct Hinv as (_ & Hin & _).
  intros Hi. apply in_map_iff in Hi. destruct Hi as [[k i'] [Heq Hki]].
  simpl in Heq. subst i'. apply Hin in Hki. tauto.
Qed.

Lemma to_action_annotation_named (env : Env) (message_index' : Z) (message_text : string)
    (spans : list AnnotatedSpan) (x : ActionSuggestionAnnotation) :
  In x (flat_map (to_action_annotation env message_index' message_text) spans) ->
  message_index x = message_index' /\ name x = collection (entity x).
Proof.
  intros Hx. apply in_flat_map in Hx. destruct Hx as (sp & _ & Hx).
  unfold to_action_annotation in Hx. destruct (classification sp) as [|c cs]; [destruct Hx|].
  destruct Hx as [<-|[]]. split; reflexivity.
Qed.

(** Suggesting actions from annotations only appends actions, each built
    from an annotation of the last message (index [size - 1]) named after
    its collection, with the type, score and entity data of a matching
    mapping of the model; the scores and flags of the response are left
    alone. *)
Theorem SuggestActionsFromAnnotations_appends (self : ActionsSuggestions) (env : Env)
    (conv : Conversation) (r : ActionsSuggestionsResponse) :
  exists added,
    actions (SuggestActionsFromAnnotations self env conv r) = (actions r ++ added)%list /\
    Forall (annotation_action self (Z.of_nat (length conv) - 1)) added /\
    response_status (SuggestActionsFromAnnotations self env conv r) = response_status r.
Proof.
  unfold SuggestActionsFromAnnotations.
  destruct (annotation_actions_spec (model_ self)) as [aspec|].
  2:{ exists []. rewrite app_nil_r. split; [reflexivity|]. split; [constructor | reflexivity]. }
  destruct (annotation_mapping aspec) as [[|m0 ms]|].
  1,3: exists []; rewrite app_nil_r; split; [reflexivity|]; split; [constructor | reflexivity].
  set (spans := match annotations (last conv empty_message), annotator env with
                | [], Some annotate => annotate (text (last conv empty_message))
                | l, _ => l end).
  set (anns := flat_map (to_action_annotation env (Z.of_nat (length conv) - 1)
                           (text (last conv empty_message))) spans).
  assert (Hnamed : forall x, In x anns ->
            message_index x = Z.of_nat (length conv) - 1 /\ name x = collection (entity x))
    by (intros x; apply to_action_annotation_named).
  destruct (deduplicate_annotations aspec); apply fold_left_appends.
  - intros r' id Hid.
    set (x := nth id anns empty_action_annotation).
    assert (Hx : In x anns) by (apply nth_In; apply DeduplicateAnnotations_in_range; exact Hid).
    destruct (CreateActionsFromAnnotation_appends self (Z.of_nat (length conv) - 1) x r')
      as (added & Ha & Hf & Hs).
    exists added. split; [exact Ha|]. split; [|exact Hs].
    eapply Forall_impl; [|exact Hf]. intros a Ha'.
    destruct (Hnamed x Hx) as [Hi Hn]. exists x. split; [exact Hi|]. split; [exact Hn | exact Ha'].
  - intros r' x Hx.
    destruct (CreateActionsFromAnnotation_appends self (Z.of_nat (length conv) - 1) x r')
      as (added & Ha & Hf & Hs).
    exists added. split; [exact Ha|]. split; [|exact Hs].
    eapply Forall_impl; [|exact Hf]. intros a Ha'.
    destruct (Hnamed x Hx) as [Hi Hn]. exists x. split; [exact Hi|]. split; [exact Hn | exact Ha'].
Qed.

(** Annotation actions depend on the conversation only through its
    length and its last message, and on the annotator only when that
    message carries no annotation. *)
Theorem SuggestActionsFromAnnotations_reads_last_message (self : ActionsSuggestions)
    (env env' : Env) (conv conv' : Conversation) (r : ActionsSuggestionsResponse)
    (Hlen : length conv = length conv')
    (Hlast : last conv empty_message = last conv' empty_message)
    (Hsub : utf8_substring env = utf8_substring env')
    (Hann : annotations (last conv empty_message) <> [] \/ annotator env = annotator env') :
  SuggestActionsFromAnnotations self env conv r = SuggestActionsFromAnnotations self env' conv' r.
Proof.
  unfold SuggestActionsFromAnnotations, to_action_annotation.
  rewrite <- Hlen, <- Hlast, <- Hsub.
  replace (match annotations (last conv empty_message), annotator env' with
           | [], Some annotate => annotate (text (last conv empty_message))
           | l, _ => l end)
    with (match annotations (last conv empty_message), annotator env with
          | [], Some annotate => annotate (text (last conv empty_message))
          | l, _ => l end).
  - reflexivity.
  - destruct Hann as [Hne | Heq].
    + destruct (annotations (last conv empty_message)); [congruence | reflexivity].
    + rewrite Heq. reflexivity.
Qed.

Lemma SuggestActionsFromAnnotations_reads_last_message_witness :
  SuggestActionsFromAnnotations (ex_self (-1) None) (ex_env finds_once)
    [mkMessage 0 "hello" 0 "en" []; mkMessage 1 "hi" 0 "en" []] default_response =
  SuggestActionsFromAnnotations (ex_self (-1) None) (ex_env finds_once)
    [mkMessage 2 "bye" 5 "de" []; mkMessage 1 "hi" 0 "en" []] default_response.
Proof.
  apply (SuggestActionsFromAnnotations_reads_last_message (ex_self (-1) None)
           (ex_env finds_once) (ex_env finds_once)
           [mkMessage 0 "hello" 0 "en" []; mkMessage 1 "hi" 0 "en" []]
           [mkMessage 2 "bye" 5 "de" []; mkMessage 1 "hi" 0 "en" []] default_response
           eq_refl eq_refl eq_refl (or_intror eq_refl)).
Defined.

Lemma key_compare_antisym (a b : DedupKey) : key_compare a b = CompOpp (key_compare b a).
Proof.
  unfold key_compare. rewrite (String.compare_antisym (fst a) (fst b)).
  destruct (String.compare (fst b) (fst a)); simpl; try reflexivity.
  apply String.compare_antisym.
Qed.

Lemma key_compare_eq (a b : DedupKey) : key_compare a b = Eq -> a = b.
Proof.
  destruct a as [a1 a2], b as [b1 b2]. unfold key_compare. simpl.
  destruct (String.compare a1 b1) eqn:E1; try discriminate.
  intros E2. apply String.compare_eq_iff in E1. apply String.compare_eq_iff in E2.
  subst. reflexivity.
Qed.

Lemma map_insert_head (k : DedupKey) (v : nat) (m : list (DedupKey * nat)) (a : DedupKey) :
  HdRel (fun x y => key_compare x y = Lt) a (map fst m) ->
  key_compare a k = Lt ->
  HdRel (fun x y => key_compare x y = Lt) a (map fst (map_insert k v m)).
Proof.
  intros Hhd Hak. destruct m as [|[k' v'] rest]; simpl.
  - constructor. exact Hak.
  - destruct (key_compare k k'); simpl; constructor; try exact Hak.
    all: inversion Hhd; assumption.
Qed.

Lemma map_insert_sorted (k : DedupKey) (v : nat) (m : list (DedupKey * nat)) :
  Sorted (fun x y => key_compare x y = Lt) (map fst m) ->
  (forall i, ~ In (k, i) m) ->
  Sorted (fun x y => key_compare x y = Lt) (map fst (map_insert k v m)).
Proof.
  induction m as [|[k' v'] rest IH]; intros Hs Hnot; simpl.
  - constructor; constructor.
  - simpl in Hs. inversion Hs as [|? ? Hs' Hhd]; subst.
    destruct (key_compare k k') eqn:E; simpl.
    + apply key_compare_eq in E. subst k'. exfalso. apply (Hnot v'). left. reflexivity.
    + constructor; [exact Hs | constructor; exact E].
    + constructor.
      * apply IH; [exact Hs'|]. intros i Hi. apply (Hnot i). right. exact Hi.
      * apply map_insert_head; [exact Hhd|].
        rewrite key_compare_antisym, E. reflexivity.
Qed.

Lemma dedup_fold_sorted (anns : list ActionSuggestionAnnotation) (b a : nat)
    (m : list (DedupKey * nat)) :
  Sorted (fun x y => key_compare x y = Lt) (map fst m) ->
  Sorted (fun x y => key_compare x y = Lt) (map fst (fold_left (dedup_step anns) (seq a b) m)).
Proof.
  revert a m. induction b as [|b IH]; intros a m Hs; simpl; [exact Hs|].
  apply IH. unfold dedup_step.
  destruct (nth_error anns a) as [x|]; [|exact Hs].
  destruct (map_find (dedup_key x) m) as [j|] eqn:Hf.
  - destruct (Qltb _ _); [rewrite PipelineProps.map_update_fst|]; exact Hs.
  - apply map_insert_sorted; [exact Hs|]. apply PipelineProps.map_find_none. exact Hf.
Qed.

(** The indices kept by [DeduplicateAnnotations] are distinct and come
    in the strictly increasing order of their (name, text) keys, the
    iteration order of the [std::map]. *)
Theorem DeduplicateAnnotations_sorted_keys (anns : list ActionSuggestionAnnotation) :
  NoDup (DeduplicateAnnotations anns) /\
  Sorted (fun x y => key_compare x y = Lt) (map (ann_key anns) (DeduplicateAnnotations anns)).
Proof.
  assert (Hinit : dedup_inv anns 0 []).
  { split; [constructor|]. split; [intros k i' []|intros j Hj; lia]. }
  pose proof (PipelineProps.dedup_fold_inv anns 0 (length anns) [] Hinit ltac:(lia)) as Hinv.
  pose proof (dedup_fold_sorted anns (length anns) 0 [] ltac:(constructor)) as Hs.
  simpl in Hinv. destruct Hinv as (Hnd & Hin & _).
  unfold DeduplicateAnnotations.
  set (m := fold_left (dedup_step anns) (seq 0 (length anns)) []) in *.
  assert (Hkeys : map (ann_key anns) (map snd m) = map fst m).
  { rewrite map_map. apply map_ext_in. intros [k i] Hki. simpl.
    symmetry. apply (Hin k i Hki). }
  rewrite Hkeys. split; [|exact Hs].
  apply (NoDup_map_inv (ann_key anns)). rewrite Hkeys. exact Hnd.
Qed.



End ActionsExtraProps.
